(** * VotingSystem (contracts/Votingsystem.sol): a shallow embedding

    The Solidity contract [VotingSystem is Ownable, ReentrancyGuard] is
    modelled as a state record, a state/error monad for the bodies of its
    public functions (with the modifiers as monadic guards), and a
    transaction wrapper [transact] that gives EVM revert semantics: a
    reverted call leaves the storage exactly as it was.

    - [uint256] values are [Z] with Solidity 0.8 checked arithmetic:
      [x++] reverts with [Panic(0x11)] when [x + 1 = 2^256].
    - [address] values are [Z] in [0, 2^160).
    - [mapping]s are [gmap]s; reading an absent key yields the zero
      record, as Solidity's mappings do.
    - The inherited OpenZeppelin 5 [Ownable] (owner, onlyOwner,
      transferOwnership, renounceOwnership) and [ReentrancyGuard]
      (nonReentrant) are modelled after their library sources.
    - Events are logs, not storage, and are not modelled. *)

From Stdlib Require Import ZArith Lia.
From stdpp Require Import base gmap list strings.

Open Scope Z_scope.

(** ** Data model *)

Definition UINT256_BOUND : Z := 2 ^ 256.
Definition ADDRESS_BOUND : Z := 2 ^ 160.

(** [struct Candidate]; the field [exists] is renamed [exists_]
    ([exists] is a Rocq keyword). *)
Record Candidate := mkCandidate {
  id : Z;
  name : string;
  description : string;
  voteCount : Z;
  exists_ : bool
}.

(** [struct Voter] *)
Record Voter := mkVoter {
  hasVoted : bool;
  votedFor : Z;
  timestamp : Z
}.

Definition zero_candidate : Candidate := mkCandidate 0 "" "" 0 false.
Definition zero_voter : Voter := mkVoter false 0 0.

(** Contract storage, including the inherited [Ownable._owner] and
    [ReentrancyGuard._status] ([true] = ENTERED). *)
Record State := mkState {
  owner : Z;
  reentrancy_entered : bool;
  candidates : gmap Z Candidate;
  voters : gmap Z Voter;
  candidateCount : Z;
  totalVotes : Z;
  votingActive : bool
}.

(** Transaction context: [msg.sender] and [block.timestamp]. *)
Record Msg := mkMsg {
  msg_sender : Z;
  block_timestamp : Z
}.

(** Revert reasons. *)
Inductive Revert :=
  | ErrVotingNotActive           (* "Voting is not active" *)
  | ErrAlreadyVoted              (* "You have already voted" *)
  | ErrCandidateDoesNotExist     (* "Candidate does not exist" *)
  | OwnableUnauthorizedAccount (account : Z)
  | OwnableInvalidOwner (account : Z)
  | ReentrancyGuardReentrantCall
  | PanicArithmeticOverflow.     (* Panic(0x11) *)

(** Mapping reads: an absent key reads as the zero record. *)
Definition cand_of (s : State) (i : Z) : Candidate :=
  default zero_candidate (candidates s !! i).
Definition voter_of (s : State) (a : Z) : Voter :=
  default zero_voter (voters s !! a).

(** Storage writes. *)
Definition set_owner (o : Z) (s : State) : State :=
  mkState o (reentrancy_entered s) (candidates s) (voters s)
          (candidateCount s) (totalVotes s) (votingActive s).
Definition set_entered (b : bool) (s : State) : State :=
  mkState (owner s) b (candidates s) (voters s)
          (candidateCount s) (totalVotes s) (votingActive s).
Definition set_candidates (cs : gmap Z Candidate) (s : State) : State :=
  mkState (owner s) (reentrancy_entered s) cs (voters s)
          (candidateCount s) (totalVotes s) (votingActive s).
Definition set_voters (vs : gmap Z Voter) (s : State) : State :=
  mkState (owner s) (reentrancy_entered s) (candidates s) vs
          (candidateCount s) (totalVotes s) (votingActive s).
Definition set_candidateCount (n : Z) (s : State) : State :=
  mkState (owner s) (reentrancy_entered s) (candidates s) (voters s)
          n (totalVotes s) (votingActive s).
Definition set_totalVotes (n : Z) (s : State) : State :=
  mkState (owner s) (reentrancy_entered s) (candidates s) (voters s)
          (candidateCount s) n (votingActive s).
Definition set_votingActive (b : bool) (s : State) : State :=
  mkState (owner s) (reentrancy_entered s) (candidates s) (voters s)
          (candidateCount s) (totalVotes s) b.

Definition set_voteCount (n : Z) (c : Candidate) : Candidate :=
  mkCandidate (id c) (name c) (description c) n (exists_ c).

(** ** A state/error monad for function bodies *)

Definition M (A : Type) : Type := State -> Revert + (A * State).

Global Instance M_ret : MRet M := fun A a s => inr (a, s).
Global Instance M_bind : MBind M := fun A B k m s =>
  match m s with
  | inl e => inl e
  | inr (a, s') => k a s'
  end.

Definition get : M State := fun s => inr (s, s).
Definition modify (f : State -> State) : M unit := fun s => inr (tt, f s).
Definition revert {A} (e : Revert) : M A := fun _ => inl e.
Definition require (b : bool) (e : Revert) : M unit :=
  if b then mret tt else revert e.

(** Checked [x + 1] on [uint256]. *)
Definition checked_incr (x : Z) : M Z :=
  if decide (x + 1 < UINT256_BOUND) then mret (x + 1)
  else revert PanicArithmeticOverflow.

(** ** Modifiers *)

(** [Ownable.onlyOwner] / [_checkOwner]. *)
Definition onlyOwner (m : Msg) : M unit :=
  s ← get;
  if decide (owner s = msg_sender m) then mret tt
  else revert (OwnableUnauthorizedAccount (msg_sender m)).

(** [modifier onlyDuringVoting] *)
Definition onlyDuringVoting : M unit :=
  s ← get; require (votingActive s) ErrVotingNotActive.

(** [modifier hasNotVoted] *)
Definition hasNotVoted (m : Msg) : M unit :=
  s ← get; require (negb (hasVoted (voter_of s (msg_sender m)))) ErrAlreadyVoted.

(** [modifier validCandidate(_candidateId)] *)
Definition validCandidate (_candidateId : Z) : M unit :=
  s ← get; require (exists_ (cand_of s _candidateId)) ErrCandidateDoesNotExist.

(** [ReentrancyGuard.nonReentrant] *)
Definition nonReentrant {A} (body : M A) : M A :=
  s ← get;
  if reentrancy_entered s then revert ReentrancyGuardReentrantCall
  else
    modify (set_entered true);;
    r ← body;
    modify (set_entered false);;
    mret r.

(** ** Public functions *)

(** [constructor() Ownable(msg.sender)]; [Ownable]'s constructor reverts
    on the zero address. *)
Definition init_state (deployer : Z) : State :=
  mkState deployer false ∅ ∅ 0 0 false.

(** [function addCandidate(string _name, string _description) onlyOwner] *)
Definition addCandidate (m : Msg) (_name _description : string) : M unit :=
  onlyOwner m;;
  s ← get;
  cc ← checked_incr (candidateCount s);
  modify (set_candidateCount cc);;
  s ← get;
  modify (set_candidates
            (<[cc := mkCandidate cc _name _description 0 true]> (candidates s))).

(** [function vote(uint256 _candidateId)
       onlyDuringVoting hasNotVoted validCandidate(_candidateId) nonReentrant] *)
Definition vote (m : Msg) (_candidateId : Z) : M unit :=
  onlyDuringVoting;;
  hasNotVoted m;;
  validCandidate _candidateId;;
  nonReentrant (
    s ← get;
    modify (set_voters (<[msg_sender m :=
              mkVoter true _candidateId (block_timestamp m)]> (voters s)));;
    s ← get;
    let c := cand_of s _candidateId in
    vc ← checked_incr (voteCount c);
    modify (set_candidates (<[_candidateId := set_voteCount vc c]> (candidates s)));;
    s ← get;
    tv ← checked_incr (totalVotes s);
    modify (set_totalVotes tv)).

(** [function toggleVoting() onlyOwner] *)
Definition toggleVoting (m : Msg) : M unit :=
  onlyOwner m;;
  s ← get;
  modify (set_votingActive (negb (votingActive s))).

(** [function getCandidate(uint256) view validCandidate(_candidateId)] *)
Definition getCandidate (_candidateId : Z) : M (string * string * Z) :=
  validCandidate _candidateId;;
  s ← get;
  let candidate := cand_of s _candidateId in
  mret (name candidate, description candidate, voteCount candidate).

(** The loop index [i = 1 .. candidateCount]. *)
Fixpoint ids_from (start : Z) (n : nat) : list Z :=
  match n with
  | O => []
  | S n' => start :: ids_from (start + 1) n'
  end.

Definition loop_ids (s : State) : list Z :=
  ids_from 1 (Z.to_nat (candidateCount s)).

(** [function getAllCandidates() view] *)
Definition getAllCandidates : M (list Candidate) :=
  s ← get; mret (map (cand_of s) (loop_ids s)).

(** [function getResults() view] *)
Definition getResults : M (list Z) :=
  s ← get; mret (map (fun i => voteCount (cand_of s i)) (loop_ids s)).

(** [function hasVoted(address) view] (named [hasVoted_] here, since
    [hasVoted] is the field of [Voter]). *)
Definition hasVoted_ (_voter : Z) : M bool :=
  s ← get; mret (hasVoted (voter_of s _voter)).

(** [function getVotingStats() view] *)
Definition getVotingStats : M (Z * Z * bool) :=
  s ← get; mret (candidateCount s, totalVotes s, votingActive s).

(** [Ownable.transferOwnership(address newOwner) onlyOwner] *)
Definition transferOwnership (m : Msg) (newOwner : Z) : M unit :=
  onlyOwner m;;
  if decide (newOwner = 0) then revert (OwnableInvalidOwner 0)
  else modify (set_owner newOwner).

(** [Ownable.renounceOwnership() onlyOwner] *)
Definition renounceOwnership (m : Msg) : M unit :=
  onlyOwner m;; modify (set_owner 0).

(** ** The contract's ABI and the transaction wrapper *)

Inductive Call :=
  | CallAddCandidate (n d : string)
  | CallVote (candidateId : Z)
  | CallToggleVoting
  | CallGetCandidate (candidateId : Z)
  | CallGetAllCandidates
  | CallGetResults
  | CallHasVoted (voter : Z)
  | CallGetVotingStats
  | CallCandidates (i : Z)          (* public getter [candidates(uint256)] *)
  | CallVoters (a : Z)              (* public getter [voters(address)] *)
  | CallCandidateCount
  | CallTotalVotes
  | CallVotingActive
  | CallOwner
  | CallTransferOwnership (newOwner : Z)
  | CallRenounceOwnership.

Inductive Ret :=
  | RUnit
  | RBool (b : bool)
  | RUint (n : Z)
  | RAddress (a : Z)
  | RCandidateInfo (n d : string) (votes : Z)
  | RCandidate (c : Candidate)
  | RVoter (v : Voter)
  | RCandidateList (l : list Candidate)
  | RUintList (l : list Z)
  | RStats (totalCandidates totalVotesCast : Z) (isVotingActive : bool).

Definition fmapM {A B} (f : A -> B) (x : M A) : M B := a ← x; mret (f a).

Definition dispatch (m : Msg) (c : Call) : M Ret :=
  match c with
  | CallAddCandidate n d => fmapM (fun _ => RUnit) (addCandidate m n d)
  | CallVote i => fmapM (fun _ => RUnit) (vote m i)
  | CallToggleVoting => fmapM (fun _ => RUnit) (toggleVoting m)
  | CallGetCandidate i =>
      fmapM (fun '(n, d, v) => RCandidateInfo n d v) (getCandidate i)
  | CallGetAllCandidates => fmapM RCandidateList getAllCandidates
  | CallGetResults => fmapM RUintList getResults
  | CallHasVoted a => fmapM RBool (hasVoted_ a)
  | CallGetVotingStats => fmapM (fun '(a, b, c) => RStats a b c) getVotingStats
  | CallCandidates i => fmapM (fun s => RCandidate (cand_of s i)) get
  | CallVoters a => fmapM (fun s => RVoter (voter_of s a)) get
  | CallCandidateCount => fmapM (fun s => RUint (candidateCount s)) get
  | CallTotalVotes => fmapM (fun s => RUint (totalVotes s)) get
  | CallVotingActive => fmapM (fun s => RBool (votingActive s)) get
  | CallOwner => fmapM (fun s => RAddress (owner s)) get
  | CallTransferOwnership a => fmapM (fun _ => RUnit) (transferOwnership m a)
  | CallRenounceOwnership => fmapM (fun _ => RUnit) (renounceOwnership m)
  end.

(** A transaction: a revert rolls back every storage write. *)
Definition transact (s : State) (m : Msg) (c : Call) : (Revert + Ret) * State :=
  match dispatch m c s with
  | inl e => (inl e, s)
  | inr (r, s') => (inr r, s')
  end.

Definition valid_msg (m : Msg) : Prop :=
  0 <= msg_sender m < ADDRESS_BOUND.

(** States reachable from a deployment by any sequence of transactions. *)
Inductive reachable : State -> Prop :=
  | reach_init d : 0 < d < ADDRESS_BOUND -> reachable (init_state d)
  | reach_step s m c : reachable s -> valid_msg m ->
      reachable (snd (transact s m c)).

(** Any sequence of transactions from [s] to [s']. *)
Inductive steps : State -> State -> Prop :=
  | steps_refl s : steps s s
  | steps_step s m c s' : steps (snd (transact s m c)) s' -> steps s s'.

(** Run a list of transactions, collecting their results. *)
Fixpoint run (s : State) (txs : list (Msg * Call)) : list (Revert + Ret) * State :=
  match txs with
  | [] => ([], s)
  | (m, c) :: rest =>
      let '(r, s1) := transact s m c in
      let '(rs, s2) := run s1 rest in
      (r :: rs, s2)
  end.

(** ** Concrete scenarios *)

Definition admin : Z := 1.
Definition at_ (a : Z) : Msg := mkMsg a 1000.

(** Spec scenario C: candidates Alice, Bob, Carol; activate; five distinct
    voters vote 1, 1, 2, 3, 1. *)
Definition scenarioC_txs : list (Msg * Call) :=
  [(at_ admin, CallAddCandidate "Alice" "Candidate 1");
   (at_ admin, CallAddCandidate "Bob" "Candidate 2");
   (at_ admin, CallAddCandidate "Carol" "Candidate 3");
   (at_ admin, CallToggleVoting);
   (at_ 11, CallVote 1); (at_ 12, CallVote 1); (at_ 13, CallVote 2);
   (at_ 14, CallVote 3); (at_ 15, CallVote 1)].

Definition scenarioC_state : State := snd (run (init_state admin) scenarioC_txs).

(** ** Operational equations of the transactions *)

Ltac unfold_tx :=
  unfold transact, dispatch, fmapM, vote, addCandidate, toggleVoting,
    getCandidate, getAllCandidates, getResults, hasVoted_, getVotingStats,
    transferOwnership, renounceOwnership, onlyOwner, onlyDuringVoting,
    hasNotVoted, validCandidate, nonReentrant, checked_incr, require,
    get, modify, revert, mbind, M_bind, mret, M_ret; simpl.

(** The state after a successful [vote]. *)
Definition vote_post (s : State) (m : Msg) (i : Z) : State :=
  let c := cand_of s i in
  mkState (owner s) (reentrancy_entered s)
    (<[i := set_voteCount (voteCount c + 1) c]> (candidates s))
    (<[msg_sender m := mkVoter true i (block_timestamp m)]> (voters s))
    (candidateCount s) (totalVotes s + 1) (votingActive s).

Lemma vote_eq s m i :
  transact s m (CallVote i) =
    if negb (votingActive s) then (inl ErrVotingNotActive, s)
    else if hasVoted (voter_of s (msg_sender m)) then (inl ErrAlreadyVoted, s)
    else if negb (exists_ (cand_of s i)) then (inl ErrCandidateDoesNotExist, s)
    else if reentrancy_entered s then (inl ReentrancyGuardReentrantCall, s)
    else if decide (voteCount (cand_of s i) + 1 < UINT256_BOUND) then
      if decide (totalVotes s + 1 < UINT256_BOUND) then (inr RUnit, vote_post s m i)
      else (inl PanicArithmeticOverflow, s)
    else (inl PanicArithmeticOverflow, s).
Proof.
  unfold_tx.
  destruct (votingActive s) eqn:Ha; simpl; [|reflexivity].
  unfold voter_of; simpl.
  destruct (hasVoted _) eqn:Hv; simpl; [reflexivity|].
  unfold cand_of; simpl.
  destruct (exists_ _) eqn:He; simpl; [|reflexivity].
  destruct (reentrancy_entered s) eqn:Hr; simpl; [reflexivity|].
  destruct (decide _) as [H1|H1]; simpl; [|reflexivity].
  destruct (decide _) as [H2|H2]; simpl; [|reflexivity].
  unfold vote_post, cand_of. rewrite Hr. reflexivity.
Qed.

(** The state after a successful [addCandidate]. *)
Definition add_post (s : State) (n d : string) : State :=
  let cc := candidateCount s + 1 in
  mkState (owner s) (reentrancy_entered s)
    (<[cc := mkCandidate cc n d 0 true]> (candidates s))
    (voters s) cc (totalVotes s) (votingActive s).

Lemma addCandidate_eq s m n d :
  transact s m (CallAddCandidate n d) =
    if decide (owner s = msg_sender m) then
      if decide (candidateCount s + 1 < UINT256_BOUND) then (inr RUnit, add_post s n d)
      else (inl PanicArithmeticOverflow, s)
    else (inl (OwnableUnauthorizedAccount (msg_sender m)), s).
Proof.
  unfold_tx.
  destruct (decide _); simpl; [|reflexivity].
  destruct (decide _); reflexivity.
Qed.

Lemma toggleVoting_eq s m :
  transact s m CallToggleVoting =
    if decide (owner s = msg_sender m) then
      (inr RUnit, set_votingActive (negb (votingActive s)) s)
    else (inl (OwnableUnauthorizedAccount (msg_sender m)), s).
Proof. unfold_tx. destruct (decide _); reflexivity. Qed.

Lemma transferOwnership_eq s m a :
  transact s m (CallTransferOwnership a) =
    if decide (owner s = msg_sender m) then
      if decide (a = 0) then (inl (OwnableInvalidOwner 0), s)
      else (inr RUnit, set_owner a s)
    else (inl (OwnableUnauthorizedAccount (msg_sender m)), s).
Proof.
  unfold_tx. destruct (decide (owner s = _)); simpl; [|reflexivity].
  destruct (decide (a = 0)); reflexivity.
Qed.

Lemma renounceOwnership_eq s m :
  transact s m CallRenounceOwnership =
    if decide (owner s = msg_sender m) then (inr RUnit, set_owner 0 s)
    else (inl (OwnableUnauthorizedAccount (msg_sender m)), s).
Proof. unfold_tx. destruct (decide _); reflexivity. Qed.

(** The calls that may write storage. *)
Definition mutating (c : Call) : bool :=
  match c with
  | CallAddCandidate _ _ | CallVote _ | CallToggleVoting
  | CallTransferOwnership _ | CallRenounceOwnership => true
  | _ => false
  end.

Lemma view_state_unchanged s m c :
  mutating c = false -> snd (transact s m c) = s.
Proof.
  destruct c; simpl; intros Hc; try discriminate; unfold_tx; try reflexivity.
  unfold cand_of. destruct (exists_ _); reflexivity.
Qed.

Lemma transact_reverted s m c e s' :
  transact s m c = (inl e, s') -> s' = s.
Proof.
  unfold transact. destruct (dispatch m c s) as [?|[? ?]]; congruence.
Qed.

(** ** The ledger invariant *)

(** Sum of [voteCount] over the existing candidates. *)
Definition tally (cs : gmap Z Candidate) : Z :=
  map_fold (fun _ c acc => (if exists_ c then voteCount c else 0) + acc) 0 cs.

Lemma tally_insert_fresh (cs : gmap Z Candidate) i c :
  cs !! i = None ->
  tally (<[i := c]> cs) = (if exists_ c then voteCount c else 0) + tally cs.
Proof.
  intros Hi. unfold tally. rewrite map_fold_insert_L; [reflexivity| |exact Hi].
  intros. lia.
Qed.

Lemma tally_delete (cs : gmap Z Candidate) i c :
  cs !! i = Some c ->
  tally cs = (if exists_ c then voteCount c else 0) + tally (delete i cs).
Proof.
  intros Hi. unfold tally. rewrite (map_fold_delete_L _ _ i c cs); [reflexivity| |exact Hi].
  intros. lia.
Qed.

Lemma tally_update (cs : gmap Z Candidate) i c c' :
  cs !! i = Some c ->
  tally (<[i := c']> cs) =
    tally cs - (if exists_ c then voteCount c else 0)
             + (if exists_ c' then voteCount c' else 0).
Proof.
  intros Hi.
  rewrite (tally_delete (<[i := c']> cs) i c') by apply lookup_insert_eq.
  rewrite delete_insert_eq, (tally_delete cs i c Hi). lia.
Qed.

Lemma tally_nonneg (cs : gmap Z Candidate) :
  (forall i c, cs !! i = Some c -> 0 <= voteCount c) -> 0 <= tally cs.
Proof.
  induction cs as [|i c cs Hi IH] using map_ind; intros Hpos.
  - unfold tally. rewrite map_fold_empty. lia.
  - rewrite tally_insert_fresh by exact Hi.
    assert (0 <= voteCount c) by (apply (Hpos i); apply lookup_insert_eq).
    assert (0 <= tally cs).
    { apply IH. intros j c' Hj. apply (Hpos j).
      rewrite lookup_insert_ne; [exact Hj|]. congruence. }
    destruct (exists_ c); lia.
Qed.

Lemma voteCount_le_tally (cs : gmap Z Candidate) i c :
  (forall j c', cs !! j = Some c' -> 0 <= voteCount c') ->
  cs !! i = Some c -> exists_ c = true -> voteCount c <= tally cs.
Proof.
  intros Hpos Hi He. rewrite (tally_delete cs i c Hi), He.
  assert (0 <= tally (delete i cs)).
  { apply tally_nonneg. intros j c' Hj. apply (Hpos j).
    destruct (decide (i = j)) as [->|Hne].
    - rewrite lookup_delete_eq in Hj. discriminate.
    - rewrite lookup_delete_ne in Hj; assumption. }
  lia.
Qed.

(** A map whose keys lie in [0, k) has at most [k] entries. *)
Lemma size_bounded_keys {V} (k : nat) (m : gmap Z V) :
  (forall a v, m !! a = Some v -> 0 <= a < Z.of_nat k) -> (size m <= k)%nat.
Proof.
  revert m. induction k as [|k IH]; intros m Hk.
  - destruct (size m) eqn:Hs; [lia|].
    assert (m <> ∅) as Hne by (intros ->; rewrite map_size_empty in Hs; discriminate).
    apply map_choose in Hne as (a & v & Ha). apply Hk in Ha. lia.
  - assert (size (delete (Z.of_nat k) m) <= k)%nat as Hd.
    { apply IH. intros a v Ha.
      destruct (decide (Z.of_nat k = a)) as [<-|Hne].
      - rewrite lookup_delete_eq in Ha. discriminate.
      - rewrite lookup_delete_ne in Ha by exact Hne. apply Hk in Ha. lia. }
    rewrite map_size_delete in Hd. destruct (m !! Z.of_nat k); simpl in Hd; lia.
Qed.

Record Inv (s : State) : Prop := {
  inv_entered : reentrancy_entered s = false;
  inv_count : 0 <= candidateCount s;
  inv_cands : forall i c, candidates s !! i = Some c ->
    1 <= i <= candidateCount s /\ id c = i /\ exists_ c = true /\ 0 <= voteCount c;
  inv_dense : forall i, 1 <= i <= candidateCount s -> is_Some (candidates s !! i);
  inv_voters : forall a v, voters s !! a = Some v ->
    hasVoted v = true /\ 0 <= a < ADDRESS_BOUND;
  inv_total : totalVotes s = Z.of_nat (size (voters s));
  inv_tally : tally (candidates s) = totalVotes s
}.

Lemma Inv_init d : Inv (init_state d).
Proof.
  constructor; simpl; try reflexivity; try lia.
  - intros i c H. rewrite lookup_empty in H. discriminate.
  - intros a v H. rewrite lookup_empty in H. discriminate.
Qed.

Lemma voter_absent s a :
  Inv s -> hasVoted (voter_of s a) = false -> voters s !! a = None.
Proof.
  intros HI Hv. unfold voter_of in Hv.
  destruct (voters s !! a) as [v|] eqn:Ha; [|reflexivity].
  apply (inv_voters s HI) in Ha as [Hv' _]. simpl in Hv. congruence.
Qed.

Lemma cand_present s i :
  exists_ (cand_of s i) = true -> candidates s !! i = Some (cand_of s i).
Proof.
  unfold cand_of. destruct (candidates s !! i); simpl; [reflexivity|discriminate].
Qed.

(** Voters are addresses, so at most [2^160] of them have voted. *)
Lemma voters_size_bound s :
  Inv s -> Z.of_nat (size (voters s)) <= ADDRESS_BOUND.
Proof.
  intros HI.
  assert (0 <= ADDRESS_BOUND) as H0 by (unfold ADDRESS_BOUND; lia).
  assert (size (voters s) <= Z.to_nat ADDRESS_BOUND)%nat as Hs.
  { apply size_bounded_keys. intros a v Ha.
    rewrite Z2Nat.id by exact H0. apply (inv_voters s HI) in Ha. tauto. }
  apply inj_le in Hs. rewrite Z2Nat.id in Hs by exact H0. exact Hs.
Qed.

(** In a state satisfying the invariant no counter of [vote] overflows. *)
Lemma vote_no_overflow s i :
  Inv s -> exists_ (cand_of s i) = true ->
  voteCount (cand_of s i) + 1 < UINT256_BOUND /\ totalVotes s + 1 < UINT256_BOUND.
Proof.
  intros HI He.
  pose proof (voters_size_bound s HI) as Hb.
  pose proof (inv_total s HI) as Ht.
  assert (voteCount (cand_of s i) <= tally (candidates s)).
  { apply (voteCount_le_tally _ i); [|apply cand_present; exact He|exact He].
    intros j c Hj. apply (inv_cands s HI) in Hj. tauto. }
  pose proof (inv_tally s HI).
  unfold UINT256_BOUND, ADDRESS_BOUND in *. lia.
Qed.

Lemma Inv_vote s m i :
  Inv s -> valid_msg m -> Inv (snd (transact s m (CallVote i))).
Proof.
  intros HI Hm. rewrite vote_eq.
  destruct (votingActive s); simpl; [|exact HI].
  destruct (hasVoted _) eqn:Hv; simpl; [exact HI|].
  destruct (exists_ (cand_of s i)) eqn:He; simpl; [|exact HI].
  destruct (reentrancy_entered s) eqn:Hr; [exact HI|].
  destruct (decide _); [|exact HI].
  destruct (decide _); [|exact HI]. simpl.
  pose proof (voter_absent s _ HI Hv) as Hnone.
  pose proof (cand_present s i He) as Hc.
  destruct HI as [HIe HIn HIc HId HIv HIt HIy].
  constructor; unfold vote_post; simpl.
  - exact Hr.
  - exact HIn.
  - intros j c Hj. destruct (decide (i = j)) as [<-|Hne].
    + rewrite lookup_insert_eq in Hj. injection Hj as <-.
      destruct (HIc i _ Hc) as (? & ? & ? & ?).
      unfold set_voteCount; cbn [id exists_ voteCount]. repeat split; first [assumption | lia].
    + rewrite lookup_insert_ne in Hj by exact Hne. exact (HIc j c Hj).
  - intros j Hj. destruct (decide (i = j)) as [<-|Hne].
    + rewrite lookup_insert_eq. eauto.
    + rewrite lookup_insert_ne by exact Hne. exact (HId j Hj).
  - intros a v Ha. destruct (decide (msg_sender m = a)) as [<-|Hne].
    + rewrite lookup_insert_eq in Ha. injection Ha as <-. split; [reflexivity|exact Hm].
    + rewrite lookup_insert_ne in Ha by exact Hne. exact (HIv a v Ha).
  - rewrite map_size_insert_None by exact Hnone. lia.
  - rewrite (tally_update _ i _ _ Hc). simpl. rewrite He. lia.
Qed.

Lemma Inv_addCandidate s m n d :
  Inv s -> Inv (snd (transact s m (CallAddCandidate n d))).
Proof.
  intros HI. rewrite addCandidate_eq.
  destruct (decide _); [|exact HI].
  destruct (decide _); [|exact HI]. simpl.
  destruct HI as [HIe HIn HIc HId HIv HIt HIy].
  assert (candidates s !! (candidateCount s + 1) = None) as Hfresh.
  { destruct (candidates s !! (candidateCount s + 1)) as [c|] eqn:Hc; [|reflexivity].
    apply HIc in Hc. lia. }
  constructor; unfold add_post; simpl.
  - exact HIe.
  - lia.
  - intros j c Hj. destruct (decide (candidateCount s + 1 = j)) as [<-|Hne].
    + rewrite lookup_insert_eq in Hj. injection Hj as <-. simpl.
      repeat split; first [reflexivity | lia].
    + rewrite lookup_insert_ne in Hj by exact Hne.
      apply HIc in Hj as (? & ? & ? & ?). repeat split; first [assumption | lia].
  - intros j Hj. destruct (decide (candidateCount s + 1 = j)) as [<-|Hne].
    + rewrite lookup_insert_eq. eauto.
    + rewrite lookup_insert_ne by exact Hne. apply HId. lia.
  - exact HIv.
  - exact HIt.
  - rewrite tally_insert_fresh by exact Hfresh. simpl. lia.
Qed.

Lemma Inv_transact s m c :
  Inv s -> valid_msg m -> Inv (snd (transact s m c)).
Proof.
  intros HI Hm.
  destruct (mutating c) eqn:Hc.
  2: { rewrite view_state_unchanged by exact Hc. exact HI. }
  destruct c; try discriminate.
  - apply Inv_addCandidate; exact HI.
  - apply Inv_vote; assumption.
  - rewrite toggleVoting_eq. destruct (decide _); [|exact HI].
    destruct HI; constructor; assumption.
  - rewrite transferOwnership_eq. destruct (decide _); [|exact HI].
    destruct (decide _); [exact HI|]. destruct HI; constructor; assumption.
  - rewrite renounceOwnership_eq. destruct (decide _); [|exact HI].
    destruct HI; constructor; assumption.
Qed.

Lemma reachable_Inv s : reachable s -> Inv s.
Proof.
  induction 1.
  - apply Inv_init.
  - apply Inv_transact; assumption.
Qed.

(** ** Auxiliary facts *)

Lemma reachable_run s txs :
  reachable s -> Forall (fun '(m, _) => valid_msg m) txs ->
  reachable (snd (run s txs)).
Proof.
  revert s. induction txs as [|[m c] txs IH]; intros s Hs Hv; simpl; [exact Hs|].
  inversion Hv as [|? ? Hm Hrest]; subst.
  destruct (transact s m c) as [r s1] eqn:Ht.
  destruct (run s1 txs) as [rs s2] eqn:Hr. simpl.
  change s2 with (snd (rs, s2)). rewrite <- Hr.
  apply IH; [|exact Hrest].
  change s1 with (snd (r, s1)). rewrite <- Ht. apply reach_step; assumption.
Qed.

Lemma length_ids_from start n : length (ids_from start n) = n.
Proof. revert start. induction n; intros; simpl; auto. Qed.

Lemma lookup_ids_from start n k :
  (k < n)%nat -> ids_from start n !! k = Some (start + Z.of_nat k).
Proof.
  revert start k. induction n as [|n IH]; intros start k Hk; [lia|].
  destruct k as [|k]; simpl.
  - f_equal. lia.
  - rewrite IH by lia. f_equal. lia.
Qed.

(** A stored [Voter] with [hasVoted = true] is never overwritten. *)
Lemma voter_record_preserved s m c a v :
  voters s !! a = Some v -> hasVoted v = true ->
  voters (snd (transact s m c)) !! a = Some v.
Proof.
  intros Ha Hv.
  destruct (mutating c) eqn:Hc.
  2: { rewrite view_state_unchanged by exact Hc. exact Ha. }
  destruct c; try discriminate.
  - rewrite addCandidate_eq. repeat destruct (decide _); exact Ha.
  - rewrite vote_eq.
    destruct (votingActive s); simpl; [|exact Ha].
    destruct (hasVoted (voter_of s (msg_sender m))) eqn:Hs; simpl; [exact Ha|].
    destruct (exists_ _); simpl; [|exact Ha].
    destruct (reentrancy_entered s); [exact Ha|].
    destruct (decide _); [|exact Ha]. destruct (decide _); [|exact Ha].
    simpl. rewrite lookup_insert_ne; [exact Ha|].
    intros Heq. unfold voter_of in Hs. rewrite Heq, Ha in Hs. simpl in Hs. congruence.
  - rewrite toggleVoting_eq. destruct (decide _); exact Ha.
  - rewrite transferOwnership_eq. repeat destruct (decide _); exact Ha.
  - rewrite renounceOwnership_eq. destruct (decide _); exact Ha.
Qed.

(** Once [msg.sender] has voted, [vote] reverts and leaves the state as is. *)
Lemma vote_after_voted s m i :
  hasVoted (voter_of s (msg_sender m)) = true ->
  transact s m (CallVote i) =
    (inl (if votingActive s then ErrAlreadyVoted else ErrVotingNotActive), s).
Proof.
  intros Hv. rewrite vote_eq, Hv. destruct (votingActive s); reflexivity.
Qed.

(** In a reachable state, [voters[a].hasVoted] holds exactly for the
    addresses with a stored [Voter]. *)
Lemma hasVoted_iff_record s a :
  Inv s -> hasVoted (voter_of s a) = match voters s !! a with Some _ => true | None => false end.
Proof.
  intros HI. unfold voter_of.
  destruct (voters s !! a) as [v|] eqn:Ha; simpl; [|reflexivity].
  apply (inv_voters s HI) in Ha. tauto.
Qed.

(** ** Claims *)

(** *** C1 *)

(** Prefix of the scenarios: one candidate added by the owner, voting on. *)
Definition one_candidate_active : State :=
  snd (run (init_state admin)
         [(at_ admin, CallAddCandidate "Alice" "Candidate 1");
          (at_ admin, CallToggleVoting)]).

(** C1 (counterexample): the claim that every later [vote] of an identity
    that has voted reverts with AlreadyVoted fails once the phase is
    toggled off: voter 11 votes, the owner turns voting off, and voter 11's
    next [vote] reverts with "Voting is not active". *)
Lemma C1_counterexample :
  ~ (forall s0 m c s1, transact s0 m (CallVote c) = (inr RUnit, s1) ->
       forall s2, steps s1 s2 ->
       forall c', fst (transact s2 m (CallVote c')) = inl ErrAlreadyVoted).
Proof.
  intros H.
  specialize (H one_candidate_active (at_ 11) 1
                (snd (transact one_candidate_active (at_ 11) (CallVote 1)))).
  specialize (H ltac:(vm_compute; reflexivity)).
  specialize (H (snd (transact (snd (transact one_candidate_active (at_ 11) (CallVote 1)))
                               (at_ admin) CallToggleVoting))).
  specialize (H (steps_step _ (at_ admin) CallToggleVoting _ (steps_refl _)) 1).
  vm_compute in H. discriminate H.
Qed.

(** C1 (amended): after a successful [vote] by [msg.sender = a] for
    candidate [c], [a]'s [Voter] record [(true, c, timestamp)] is never
    changed by any later transaction, and every later [vote] by [a], for
    any candidate, reverts without changing the state: with AlreadyVoted
    while voting is active and with VotingInactive while it is not. *)
Theorem C1_vote_at_most_once s0 m c s1 :
  transact s0 m (CallVote c) = (inr RUnit, s1) ->
  forall s2, steps s1 s2 ->
    voters s2 !! msg_sender m = Some (mkVoter true c (block_timestamp m)) /\
    forall m' c', msg_sender m' = msg_sender m ->
      transact s2 m' (CallVote c') =
        (inl (if votingActive s2 then ErrAlreadyVoted else ErrVotingNotActive), s2).
Proof.
  intros Hvote.
  assert (voters s1 !! msg_sender m = Some (mkVoter true c (block_timestamp m))) as H1.
  { revert Hvote. rewrite vote_eq.
    destruct (votingActive s0); simpl; [|discriminate].
    destruct (hasVoted _); simpl; [discriminate|].
    destruct (exists_ _); simpl; [|discriminate].
    destruct (reentrancy_entered s0); [discriminate|].
    destruct (decide _); [|discriminate]. destruct (decide _); [|discriminate].
    intros [= <-]. simpl. apply lookup_insert_eq. }
  intros s2 Hsteps. clear Hvote. revert H1.
  induction Hsteps as [s|s m0 c0 s' Hs IH]; intros H1.
  - split; [exact H1|].
    intros m' c' Hm'. apply vote_after_voted.
    unfold voter_of. rewrite Hm', H1. reflexivity.
  - apply IH. apply voter_record_preserved; [exact H1|reflexivity].
Qed.

Lemma C1_vote_at_most_once_witness :
  transact one_candidate_active (at_ 11) (CallVote 1) =
    (inr RUnit, snd (transact one_candidate_active (at_ 11) (CallVote 1))) /\
  voters (snd (transact one_candidate_active (at_ 11) (CallVote 1))) !! 11 =
    Some (mkVoter true 1 1000).
Proof.
  assert (Hv : transact one_candidate_active (at_ 11) (CallVote 1) =
    (inr RUnit, snd (transact one_candidate_active (at_ 11) (CallVote 1))))
    by (vm_compute; reflexivity).
  split; [exact Hv|].
  exact (proj1 (C1_vote_at_most_once one_candidate_active (at_ 11) 1 _ Hv _ (steps_refl _))).
Defined.

Lemma scenarioC_reachable : reachable scenarioC_state.
Proof.
  apply reachable_run.
  - apply reach_init. unfold admin, ADDRESS_BOUND. lia.
  - unfold scenarioC_txs.
    repeat (constructor; [unfold valid_msg, ADDRESS_BOUND, at_, admin; simpl; lia|]).
    constructor.
Qed.

(** *** C2 *)

(** C2: in every reachable state (any sequence of transactions, reverted
    or not, from a deployment) the sum of [voteCount] over the existing
    candidates equals [totalVotes]. *)
Theorem C2_tally_consistency s :
  reachable s -> tally (candidates s) = totalVotes s.
Proof. intros Hs. exact (inv_tally s (reachable_Inv s Hs)). Qed.

Lemma C2_tally_consistency_witness :
  reachable scenarioC_state /\ tally (candidates scenarioC_state) = 5.
Proof.
  split; [exact scenarioC_reachable|].
  rewrite (C2_tally_consistency scenarioC_state scenarioC_reachable).
  vm_compute. reflexivity.
Defined.

(** *** C3 *)

(** C3: in every reachable state the existing candidate ids are exactly
    [1 .. candidateCount] and each stored candidate carries its own key as
    [id] (no duplicates); a successful [addCandidate] stores, at the
    previously unused id [candidateCount + 1], a candidate with that id,
    the given name and description and [voteCount = 0], sets
    [candidateCount] to that id and leaves every other id untouched. *)
Theorem C3_dense_candidate_ids s :
  reachable s ->
  (forall i, exists_ (cand_of s i) = true <-> 1 <= i <= candidateCount s) /\
  (forall i c, candidates s !! i = Some c -> id c = i) /\
  (forall m n d s', transact s m (CallAddCandidate n d) = (inr RUnit, s') ->
     exists_ (cand_of s (candidateCount s + 1)) = false /\
     candidateCount s' = candidateCount s + 1 /\
     candidates s' !! (candidateCount s + 1) =
       Some (mkCandidate (candidateCount s + 1) n d 0 true) /\
     (forall j, j <> candidateCount s + 1 -> candidates s' !! j = candidates s !! j)).
Proof.
  intros Hs. pose proof (reachable_Inv s Hs) as HI.
  split; [|split].
  - intros i. unfold cand_of. split.
    + destruct (candidates s !! i) as [c|] eqn:Hc; simpl; [|discriminate].
      intros _. apply (inv_cands s HI) in Hc. tauto.
    + intros Hi. destruct (inv_dense s HI i Hi) as [c Hc]. rewrite Hc. simpl.
      apply (inv_cands s HI) in Hc. tauto.
  - intros i c Hc. apply (inv_cands s HI) in Hc. tauto.
  - intros m n d s'. rewrite addCandidate_eq.
    destruct (decide _); [|discriminate]. destruct (decide _); [|discriminate].
    intros [= <-]. unfold add_post; simpl.
    split; [|split; [reflexivity|split]].
    + unfold cand_of. destruct (candidates s !! _) as [c|] eqn:Hc; [|reflexivity].
      apply (inv_cands s HI) in Hc. lia.
    + apply lookup_insert_eq.
    + intros j Hj. apply lookup_insert_ne. congruence.
Qed.

Lemma C3_dense_candidate_ids_witness :
  reachable scenarioC_state /\
  (forall i, exists_ (cand_of scenarioC_state i) = true <-> 1 <= i <= 3).
Proof.
  split; [exact scenarioC_reachable|].
  pose proof (proj1 (C3_dense_candidate_ids scenarioC_state scenarioC_reachable)) as H.
  assert (candidateCount scenarioC_state = 3) as Hc by (vm_compute; reflexivity).
  rewrite Hc in H. exact H.
Defined.

(** *** C4 *)

(** C4: in every reachable state [vote] checks, in this order, that
    voting is active (else "Voting is not active"), that the caller has
    no [Voter] record (else "You have already voted") and that the
    candidate exists (else "Candidate does not exist"); when all three
    pass it succeeds (the reentrancy guard and the checked increments never
    revert there). *)
Theorem C4_vote_check_order s m i :
  reachable s ->
  fst (transact s m (CallVote i)) =
    if negb (votingActive s) then inl ErrVotingNotActive
    else match voters s !! msg_sender m with
         | Some _ => inl ErrAlreadyVoted
         | None => if negb (exists_ (cand_of s i)) then inl ErrCandidateDoesNotExist
                   else inr RUnit
         end.
Proof.
  intros Hs. pose proof (reachable_Inv s Hs) as HI.
  rewrite vote_eq, (hasVoted_iff_record s _ HI).
  destruct (votingActive s); simpl; [|reflexivity].
  destruct (voters s !! msg_sender m); simpl; [reflexivity|].
  destruct (exists_ (cand_of s i)) eqn:He; simpl; [|reflexivity].
  rewrite (inv_entered s HI).
  destruct (vote_no_overflow s i HI He) as [H1 H2].
  destruct (decide _); [|contradiction]. destruct (decide _); [|contradiction].
  reflexivity.
Qed.

Lemma C4_vote_check_order_witness :
  reachable scenarioC_state /\
  fst (transact scenarioC_state (at_ 11) (CallVote 99)) = inl ErrAlreadyVoted /\
  fst (transact scenarioC_state (at_ 16) (CallVote 99)) = inl ErrCandidateDoesNotExist.
Proof.
  split; [exact scenarioC_reachable|split].
  - rewrite (C4_vote_check_order scenarioC_state (at_ 11) 99 scenarioC_reachable).
    vm_compute. reflexivity.
  - rewrite (C4_vote_check_order scenarioC_state (at_ 16) 99 scenarioC_reachable).
    vm_compute. reflexivity.
Defined.

(** *** C5 *)

(** C5 (counterexample): [addCandidate] has no input check: the owner's
    [addCandidate("", "")] on a fresh deployment succeeds and creates
    candidate 1, so it neither reverts nor leaves [candidateCount]
    unchanged. *)
Lemma C5_counterexample :
  ~ (forall s m n d, owner s = msg_sender m -> (n = ""%string \/ d = ""%string) ->
       (exists e, fst (transact s m (CallAddCandidate n d)) = inl e) /\
       candidateCount (snd (transact s m (CallAddCandidate n d))) = candidateCount s).
Proof.
  intros H.
  destruct (H (init_state admin) (at_ admin) "" "" eq_refl (or_introl eq_refl))
    as [[e He] _].
  vm_compute in He. discriminate He.
Qed.

(** C5 (amended): [addCandidate] called by the owner does not validate
    its name or description: for any strings, empty ones included, it
    succeeds unless [candidateCount + 1] overflows [uint256], raising
    [candidateCount] by one and storing a candidate with the next id, the
    given (possibly empty) name and description and [voteCount = 0]. *)
Theorem C5_addCandidate_no_input_check s m n d :
  owner s = msg_sender m -> candidateCount s + 1 < UINT256_BOUND ->
  exists s',
    transact s m (CallAddCandidate n d) = (inr RUnit, s') /\
    candidateCount s' = candidateCount s + 1 /\
    candidates s' !! (candidateCount s + 1) =
      Some (mkCandidate (candidateCount s + 1) n d 0 true).
Proof.
  intros Ho Hc. exists (add_post s n d). rewrite addCandidate_eq.
  destruct (decide _); [|contradiction]. destruct (decide _); [|contradiction].
  split; [reflexivity|split; [reflexivity|]]. apply lookup_insert_eq.
Qed.

Lemma C5_addCandidate_no_input_check_witness :
  owner (init_state admin) = msg_sender (at_ admin) /\
  candidateCount (init_state admin) + 1 < UINT256_BOUND /\
  exists s',
    transact (init_state admin) (at_ admin) (CallAddCandidate "" "") = (inr RUnit, s') /\
    candidateCount s' = 1 /\
    candidates s' !! 1 = Some (mkCandidate 1 "" "" 0 true).
Proof.
  assert (Ho : owner (init_state admin) = msg_sender (at_ admin)) by reflexivity.
  assert (Hc : candidateCount (init_state admin) + 1 < UINT256_BOUND)
    by (unfold UINT256_BOUND; simpl; lia).
  split; [exact Ho|split; [exact Hc|]].
  exact (C5_addCandidate_no_input_check (init_state admin) (at_ admin) "" "" Ho Hc).
Defined.

(** *** C6 *)

(** The two owner-only functions of [VotingSystem] itself. *)
Inductive AdminCall :=
  | AdAddCandidate (n d : string)
  | AdToggleVoting.

Definition admin_call (ac : AdminCall) : Call :=
  match ac with
  | AdAddCandidate n d => CallAddCandidate n d
  | AdToggleVoting => CallToggleVoting
  end.

(** The inherited [Ownable] functions that write [_owner]. *)
Definition ownership_call (c : Call) : bool :=
  match c with
  | CallTransferOwnership _ | CallRenounceOwnership => true
  | _ => false
  end.

Definition after_transfer : State :=
  snd (transact (init_state admin) (at_ admin) (CallTransferOwnership 2)).

(** C6 (counterexample): the administrator is not fixed at deployment.
    The deployer (address 1) calls the inherited [transferOwnership(2)];
    then address 2, which is not the deployer, calls [toggleVoting] and
    it succeeds, turning voting on. *)
Lemma C6_counterexample :
  ~ (forall d s, steps (init_state d) s ->
       forall m ac, msg_sender m <> d ->
       transact s m (admin_call ac) =
         (inl (OwnableUnauthorizedAccount (msg_sender m)), s)).
Proof.
  intros H.
  specialize (H admin after_transfer
                (steps_step _ (at_ admin) (CallTransferOwnership 2) _ (steps_refl _))
                (at_ 2) AdToggleVoting ltac:(vm_compute; discriminate)).
  vm_compute in H. discriminate H.
Qed.

(** C6 (amended): the administrator is the current [owner]: an
    [addCandidate] or [toggleVoting] call by any other address reverts
    with [OwnableUnauthorizedAccount] and leaves the whole state
    unchanged; and [owner], set to the deployer at deployment, is changed
    by no transaction other than the inherited [transferOwnership] and
    [renounceOwnership]. *)
Theorem C6_non_owner_unauthorized s m ac :
  owner s <> msg_sender m ->
  transact s m (admin_call ac) = (inl (OwnableUnauthorizedAccount (msg_sender m)), s) /\
  (forall m' c, ownership_call c = false -> owner (snd (transact s m' c)) = owner s).
Proof.
  intros Hne. split.
  - destruct ac; simpl.
    + rewrite addCandidate_eq. destruct (decide _); [contradiction|reflexivity].
    + rewrite toggleVoting_eq. destruct (decide _); [contradiction|reflexivity].
  - intros m' c Hc.
    destruct (mutating c) eqn:Hm.
    2: { rewrite view_state_unchanged by exact Hm. reflexivity. }
    destruct c; try discriminate.
    + rewrite addCandidate_eq. repeat destruct (decide _); reflexivity.
    + rewrite vote_eq. repeat case_match; reflexivity.
    + rewrite toggleVoting_eq. destruct (decide _); reflexivity.
Qed.

Lemma C6_non_owner_unauthorized_witness :
  owner after_transfer <> msg_sender (at_ admin) /\
  transact after_transfer (at_ admin) CallToggleVoting =
    (inl (OwnableUnauthorizedAccount 1), after_transfer).
Proof.
  assert (Hne : owner after_transfer <> msg_sender (at_ admin))
    by (vm_compute; discriminate).
  split; [exact Hne|].
  exact (proj1 (C6_non_owner_unauthorized after_transfer (at_ admin) AdToggleVoting Hne)).
Defined.

(** *** C7 *)

(** C7: in every reachable state [getResults] succeeds without changing
    the state and returns a list of length [candidateCount] whose entry
    [i - 1] is the [voteCount] of the candidate with id [i]; on spec
    scenario C (three candidates, voting on, five voters choosing
    1, 1, 2, 3, 1) it returns [[3; 1; 1]]. *)
Theorem C7_results_aligned :
  (forall s m, reachable s ->
     exists l, transact s m CallGetResults = (inr (RUintList l), s) /\
       length l = Z.to_nat (candidateCount s) /\
       forall i, 1 <= i <= candidateCount s ->
         exists c, candidates s !! i = Some c /\ id c = i /\
                   l !! Z.to_nat (i - 1) = Some (voteCount c)) /\
  fst (run (init_state admin) scenarioC_txs) = repeat (inr RUnit) 9 /\
  fst (transact scenarioC_state (at_ admin) CallGetResults) = inr (RUintList [3; 1; 1]).
Proof.
  split; [|split; vm_compute; reflexivity].
  intros s m Hs. pose proof (reachable_Inv s Hs) as HI.
  eexists. split; [unfold_tx; reflexivity|]. split.
  - rewrite length_map. apply length_ids_from.
  - intros i Hi. destruct (inv_dense s HI i Hi) as [c Hc].
    exists c. split; [exact Hc|]. split; [apply (inv_cands s HI) in Hc; tauto|].
    unfold loop_ids. rewrite list_lookup_fmap, lookup_ids_from by lia. simpl.
    unfold cand_of. replace (1 + Z.of_nat (Z.to_nat (i - 1))) with i by lia.
    rewrite Hc. reflexivity.
Qed.

Lemma C7_results_aligned_witness :
  reachable scenarioC_state /\
  exists l, transact scenarioC_state (at_ admin) CallGetResults =
              (inr (RUintList l), scenarioC_state) /\ length l = 3%nat.
Proof.
  split; [exact scenarioC_reachable|].
  destruct (proj1 C7_results_aligned scenarioC_state (at_ admin) scenarioC_reachable)
    as (l & Hl & Hlen & _).
  exists l. split; [exact Hl|]. rewrite Hlen. vm_compute. reflexivity.
Defined.

(** *** C8 *)

(** The read operations of the spec: [getCandidate], [getAllCandidates]
    (listCandidates), [hasVoted] and the [votingActive] getter (getPhase). *)
Inductive ReadCall :=
  | RdGetCandidate (i : Z)
  | RdListCandidates
  | RdHasVoted (a : Z)
  | RdGetPhase.

Definition read_call (r : ReadCall) : Call :=
  match r with
  | RdGetCandidate i => CallGetCandidate i
  | RdListCandidates => CallGetAllCandidates
  | RdHasVoted a => CallHasVoted a
  | RdGetPhase => CallVotingActive
  end.

(** C8: the read operations never change the state; the only one that
    reverts is [getCandidate], exactly when the id has no existing
    candidate (revert "Candidate does not exist"); [hasVoted] of an
    address with no [Voter] record returns [false]. *)
Theorem C8_reads_pure s m r :
  snd (transact s m (read_call r)) = s /\
  (forall e, fst (transact s m (read_call r)) = inl e ->
     exists i, r = RdGetCandidate i /\ exists_ (cand_of s i) = false /\
               e = ErrCandidateDoesNotExist) /\
  (forall i, (exists e, fst (transact s m (CallGetCandidate i)) = inl e) <->
             exists_ (cand_of s i) = false) /\
  (forall a, voters s !! a = None -> fst (transact s m (CallHasVoted a)) = inr (RBool false)).
Proof.
  split; [apply view_state_unchanged; destruct r; reflexivity|].
  assert (Hgc : forall i, fst (transact s m (CallGetCandidate i)) =
            if exists_ (cand_of s i)
            then inr (RCandidateInfo (name (cand_of s i)) (description (cand_of s i))
                                     (voteCount (cand_of s i)))
            else inl ErrCandidateDoesNotExist).
  { intros i. unfold_tx. unfold cand_of. destruct (exists_ _); reflexivity. }
  split; [|split].
  - intros e. destruct r as [i| |a|]; simpl.
    + rewrite Hgc. destruct (exists_ (cand_of s i)) eqn:He; [discriminate|].
      intros [= <-]. exists i. auto.
    + unfold_tx. discriminate.
    + unfold_tx. discriminate.
    + unfold_tx. discriminate.
  - intros i. rewrite Hgc. destruct (exists_ (cand_of s i)); split.
    + intros [e He]; discriminate.
    + discriminate.
    + intros _. reflexivity.
    + intros _. eauto.
  - intros a Ha. unfold_tx. unfold voter_of. rewrite Ha. reflexivity.
Qed.

Lemma C8_reads_pure_witness :
  voters (init_state admin) !! 11 = None /\
  fst (transact (init_state admin) (at_ 11) (CallHasVoted 11)) = inr (RBool false).
Proof.
  assert (Ha : voters (init_state admin) !! 11 = None) by reflexivity.
  split; [exact Ha|].
  exact (proj2 (proj2 (proj2 (C8_reads_pure (init_state admin) (at_ 11) RdGetPhase))) 11 Ha).
Defined.

(** *** C9 *)

(** A batch of [vote] transactions. *)
Definition votes_of (txs : list (Msg * Z)) : list (Msg * Call) :=
  map (fun '(m, i) => (m, CallVote i)) txs.

Definition is_success (r : Revert + Ret) : bool :=
  match r with inr _ => true | inl _ => false end.

Lemma vote_success s m i r s1 :
  transact s m (CallVote i) = (inr r, s1) ->
  r = RUnit /\ s1 = vote_post s m i /\ votingActive s = true /\
  hasVoted (voter_of s (msg_sender m)) = false /\ exists_ (cand_of s i) = true /\
  reentrancy_entered s = false.
Proof.
  rewrite vote_eq.
  destruct (votingActive s); simpl; [|discriminate].
  destruct (hasVoted _); simpl; [discriminate|].
  destruct (exists_ _); simpl; [|discriminate].
  destruct (reentrancy_entered s); [discriminate|].
  destruct (decide _); [|discriminate]. destruct (decide _); [|discriminate].
  intros [= <- <-]. repeat split.
Qed.

Lemma votes_after_voted s a txs :
  hasVoted (voter_of s a) = true ->
  Forall (fun '(m, _) => msg_sender m = a) txs ->
  run s (votes_of txs) =
    (repeat (inl (if votingActive s then ErrAlreadyVoted else ErrVotingNotActive))
            (length txs), s).
Proof.
  intros Hv. induction txs as [|[m i] txs IH]; intros Hf; [reflexivity|].
  inversion Hf as [|? ? Hm Hrest]; subst. simpl.
  rewrite vote_after_voted by exact Hv. rewrite IH by exact Hrest. reflexivity.
Qed.

Lemma votes_at_most_one s a txs :
  Forall (fun '(m, _) => msg_sender m = a) txs ->
  (length (filter is_success (fst (run s (votes_of txs)))) <= 1)%nat.
Proof.
  revert s. induction txs as [|[m i] txs IH]; intros s Hf; simpl; [lia|].
  inversion Hf as [|? ? Hm Hrest]; subst.
  destruct (transact s m (CallVote i)) as [[e|r] s1] eqn:Ht; simpl.
  - apply transact_reverted in Ht as ->.
    specialize (IH s Hrest). destruct (run s (votes_of txs)). simpl in *. exact IH.
  - apply vote_success in Ht as (-> & -> & _).
    rewrite (votes_after_voted _ (msg_sender m)); [|unfold vote_post, voter_of; simpl;
      rewrite lookup_insert_eq; reflexivity|exact Hrest].
    simpl. clear. induction (length txs) as [|n IHn]; simpl; [lia|].
    rewrite filter_cons. destruct (votingActive s); exact IHn.
Qed.

(** C9: transactions are executed one at a time, so concurrent calls are
    some sequence of them. Take any sequence of [N >= 1] [vote]
    transactions from one address [a], each for an existing candidate,
    started in a reachable state where voting is active and [a] has not
    voted. The first succeeds, the other [N - 1] revert with
    AlreadyVoted, and [totalVotes] grows by exactly one. From any state,
    at most one [vote] of such a sequence succeeds. *)
Theorem C9_same_identity_votes s a txs :
  reachable s -> votingActive s = true -> voters s !! a = None ->
  Forall (fun '(m, i) => msg_sender m = a /\ exists_ (cand_of s i) = true) txs ->
  txs <> [] ->
  fst (run s (votes_of txs)) = inr RUnit :: repeat (inl ErrAlreadyVoted) (length txs - 1) /\
  totalVotes (snd (run s (votes_of txs))) = totalVotes s + 1 /\
  (forall s0, (length (filter is_success (fst (run s0 (votes_of txs)))) <= 1)%nat).
Proof.
  intros Hs Hact Hnone Hf Hne.
  assert (Hsend : Forall (fun '(m, _) => msg_sender m = a) txs).
  { eapply Forall_impl; [exact Hf|]. intros [m i]. tauto. }
  split; [|split]; [| |intros s0; exact (votes_at_most_one s0 a txs Hsend)].
  all: destruct txs as [|[m i] rest]; [contradiction|].
  all: inversion Hf as [|? ? Hmi Hrest]; subst; simpl in Hmi; destruct Hmi as [Hm Hi].
  all: inversion Hsend as [|? ? _ Hsend']; subst.
  all: pose proof (C4_vote_check_order s m i Hs) as H4.
  all: rewrite Hact, Hnone, Hi in H4; simpl in H4.
  all: destruct (transact s m (CallVote i)) as [r s1] eqn:Ht; simpl in H4; subst r.
  all: pose proof Ht as Ht'; apply vote_success in Ht' as (_ & Hs1 & _).
  all: simpl; rewrite Ht; subst s1.
  all: rewrite (votes_after_voted _ (msg_sender m)); [|unfold vote_post, voter_of; simpl;
      rewrite lookup_insert_eq; reflexivity|exact Hsend'].
  all: simpl.
  - rewrite Hact. replace (length rest - 0)%nat with (length rest) by lia. reflexivity.
  - reflexivity.
Qed.

Definition three_votes_by_21 : list (Msg * Z) :=
  [(mkMsg 21 1000, 1); (mkMsg 21 1001, 2); (mkMsg 21 1002, 3)].

Lemma C9_same_identity_votes_witness :
  reachable scenarioC_state /\ votingActive scenarioC_state = true /\
  voters scenarioC_state !! 21 = None /\
  fst (run scenarioC_state (votes_of three_votes_by_21)) =
    [inr RUnit; inl ErrAlreadyVoted; inl ErrAlreadyVoted].
Proof.
  assert (Hact : votingActive scenarioC_state = true) by (vm_compute; reflexivity).
  assert (Hnone : voters scenarioC_state !! 21 = None) by (vm_compute; reflexivity).
  split; [exact scenarioC_reachable|split; [exact Hact|split; [exact Hnone|]]].
  refine (proj1 (C9_same_identity_votes scenarioC_state 21 three_votes_by_21
                   scenarioC_reachable Hact Hnone _ _)).
  - repeat constructor; vm_compute; reflexivity.
  - discriminate.
Defined.

(** *** C10 *)

(** C10: a successful [vote(c)] by [msg.sender = a] changes exactly this:
    candidate [c] (which existed) gets [voteCount + 1] with its id, name,
    description and [exists] flag unchanged; [totalVotes] grows by one;
    [a], which had not voted, gets the record
    [(true, c, block.timestamp)]. Every other candidate, every other
    voter record, [candidateCount], [votingActive], [owner] and the
    reentrancy status are unchanged. *)
Theorem C10_vote_frame s m c s' :
  transact s m (CallVote c) = (inr RUnit, s') ->
  (exists c0 c1, candidates s !! c = Some c0 /\ candidates s' !! c = Some c1 /\
     id c1 = id c0 /\ name c1 = name c0 /\ description c1 = description c0 /\
     exists_ c1 = exists_ c0 /\ voteCount c1 = voteCount c0 + 1) /\
  (forall j, j <> c -> candidates s' !! j = candidates s !! j) /\
  hasVoted (voter_of s (msg_sender m)) = false /\
  voters s' !! msg_sender m = Some (mkVoter true c (block_timestamp m)) /\
  (forall a, a <> msg_sender m -> voters s' !! a = voters s !! a) /\
  totalVotes s' = totalVotes s + 1 /\
  candidateCount s' = candidateCount s /\
  votingActive s' = votingActive s /\
  owner s' = owner s /\
  reentrancy_entered s' = reentrancy_entered s.
Proof.
  intros Ht. apply vote_success in Ht as (_ & -> & _ & Hv & He & _).
  unfold vote_post; simpl.
  split; [|split; [|split; [exact Hv|split; [|split]]]].
  - exists (cand_of s c), (set_voteCount (voteCount (cand_of s c) + 1) (cand_of s c)).
    split; [apply cand_present; exact He|]. split; [apply lookup_insert_eq|].
    repeat split.
  - intros j Hj. apply lookup_insert_ne. congruence.
  - apply lookup_insert_eq.
  - intros a Ha. apply lookup_insert_ne. congruence.
  - repeat split.
Qed.

Lemma C10_vote_frame_witness :
  transact one_candidate_active (at_ 11) (CallVote 1) =
    (inr RUnit, snd (transact one_candidate_active (at_ 11) (CallVote 1))) /\
  totalVotes (snd (transact one_candidate_active (at_ 11) (CallVote 1))) =
    totalVotes one_candidate_active + 1.
Proof.
  assert (Hv : transact one_candidate_active (at_ 11) (CallVote 1) =
    (inr RUnit, snd (transact one_candidate_active (at_ 11) (CallVote 1))))
    by (vm_compute; reflexivity).
  split; [exact Hv|].
  exact (proj1 (proj2 (proj2 (proj2 (proj2 (proj2
           (C10_vote_frame one_candidate_active (at_ 11) 1 _ Hv))))))).
Defined.

(** ** Further properties of the contract *)

(** Transactions from valid senders. *)
Inductive valid_steps : State -> State -> Prop :=
  | vsteps_refl s : valid_steps s s
  | vsteps_step s m c s' : valid_msg m ->
      valid_steps (snd (transact s m c)) s' -> valid_steps s s'.

Lemma valid_steps_reachable s s' : reachable s -> valid_steps s s' -> reachable s'.
Proof.
  intros Hs H. induction H as [|s m c s' Hm _ IH]; [exact Hs|].
  apply IH. apply reach_step; assumption.
Qed.

(** Number of stored [Voter] records whose [votedFor] is [i]. *)
Definition votes_for (vs : gmap Z Voter) (i : Z) : Z :=
  map_fold (fun _ v acc => (if decide (votedFor v = i) then 1 else 0) + acc) 0 vs.

Lemma votes_for_insert_fresh (vs : gmap Z Voter) a v i :
  vs !! a = None ->
  votes_for (<[a := v]> vs) i = (if decide (votedFor v = i) then 1 else 0) + votes_for vs i.
Proof.
  intros Ha. unfold votes_for. rewrite map_fold_insert_L; [reflexivity| |exact Ha].
  intros. lia.
Qed.

Lemma votes_for_nonneg (vs : gmap Z Voter) i : 0 <= votes_for vs i.
Proof.
  induction vs as [|a v vs Ha IH] using map_ind.
  - unfold votes_for. rewrite map_fold_empty. lia.
  - rewrite votes_for_insert_fresh by exact Ha. destruct (decide _); lia.
Qed.

Lemma votes_for_pos (vs : gmap Z Voter) a v :
  vs !! a = Some v -> 1 <= votes_for vs (votedFor v).
Proof.
  intros Ha. unfold votes_for.
  rewrite (map_fold_delete_L _ _ a v vs); [| intros; lia | exact Ha].
  destruct (decide _) as [_|Hne]; [|contradiction].
  pose proof (votes_for_nonneg (delete a vs) (votedFor v)) as H. unfold votes_for in H. lia.
Qed.

(** Every candidate's [voteCount] counts the voter records that name it. *)
Lemma reachable_votes_for s :
  reachable s -> forall i, voteCount (cand_of s i) = votes_for (voters s) i.
Proof.
  induction 1 as [d _|s m c Hs IH Hm].
  - intros i. reflexivity.
  - pose proof (reachable_Inv s Hs) as HI.
    destruct (mutating c) eqn:Hc.
    2: { rewrite view_state_unchanged by exact Hc. exact IH. }
    destruct c; try discriminate.
    + rewrite addCandidate_eq. destruct (decide _); [|exact IH].
      destruct (decide _); [|exact IH]. simpl. intros i.
      unfold add_post, cand_of; simpl.
      destruct (decide (candidateCount s + 1 = i)) as [<-|Hne].
      * rewrite lookup_insert_eq. simpl. rewrite <- IH. unfold cand_of.
        destruct (candidates s !! _) as [c0|] eqn:Hc0; [|reflexivity].
        apply (inv_cands s HI) in Hc0. lia.
      * rewrite lookup_insert_ne by exact Hne. apply IH.
    + rewrite vote_eq.
      destruct (votingActive s); simpl; [|exact IH].
      destruct (hasVoted _) eqn:Hv; simpl; [exact IH|].
      destruct (exists_ (cand_of s candidateId)) eqn:He; simpl; [|exact IH].
      destruct (reentrancy_entered s); [exact IH|].
      destruct (decide _); [|exact IH]. destruct (decide _); [|exact IH]. simpl.
      intros i. unfold vote_post; simpl.
      rewrite votes_for_insert_fresh by exact (voter_absent s _ HI Hv). simpl.
      unfold cand_of at 1; simpl.
      destruct (decide (candidateId = i)) as [<-|Hne].
      * rewrite lookup_insert_eq. simpl. rewrite IH. lia.
      * rewrite lookup_insert_ne by exact Hne. fold (cand_of s i). rewrite IH. lia.
    + rewrite toggleVoting_eq. destruct (decide _); exact IH.
    + rewrite transferOwnership_eq. repeat destruct (decide _); exact IH.
    + rewrite renounceOwnership_eq. destruct (decide _); exact IH.
Qed.

(** *** Extra properties *)

Lemma getCandidate_eq s m i :
  fst (transact s m (CallGetCandidate i)) =
    if exists_ (cand_of s i)
    then inr (RCandidateInfo (name (cand_of s i)) (description (cand_of s i))
                             (voteCount (cand_of s i)))
    else inl ErrCandidateDoesNotExist.
Proof. unfold_tx. unfold cand_of. destruct (exists_ _); reflexivity. Qed.

(** X1: in a reachable state [getAllCandidates] succeeds without changing
    the state and lists the [candidateCount] stored candidates in id order:
    entry [k] is the stored candidate with id [k + 1], which exists. *)
Theorem X1_getAllCandidates_listing s m :
  reachable s ->
  exists l, transact s m CallGetAllCandidates = (inr (RCandidateList l), s) /\
    length l = Z.to_nat (candidateCount s) /\
    forall k c, l !! k = Some c ->
      candidates s !! (Z.of_nat k + 1) = Some c /\ id c = Z.of_nat k + 1 /\
      exists_ c = true.
Proof.
  intros Hs. pose proof (reachable_Inv s Hs) as HI.
  eexists. split; [unfold_tx; reflexivity|]. split.
  - rewrite length_map. apply length_ids_from.
  - intros k c Hk. unfold loop_ids in Hk. rewrite list_lookup_fmap in Hk.
    destruct (decide (k < Z.to_nat (candidateCount s))%nat) as [Hlt|Hge].
    2: { rewrite lookup_ge_None_2 in Hk; [discriminate|]. rewrite length_ids_from. lia. }
    rewrite lookup_ids_from in Hk by exact Hlt. simpl in Hk. injection Hk as <-.
    replace (1 + Z.of_nat k) with (Z.of_nat k + 1) by lia.
    destruct (inv_dense s HI (Z.of_nat k + 1)) as [c Hc]; [lia|].
    unfold cand_of. rewrite Hc. simpl.
    apply (inv_cands s HI) in Hc as (_ & ? & ? & _). auto.
Qed.

Lemma X1_getAllCandidates_listing_witness :
  reachable scenarioC_state /\
  exists l, transact scenarioC_state (at_ admin) CallGetAllCandidates =
              (inr (RCandidateList l), scenarioC_state) /\ length l = 3%nat.
Proof.
  split; [exact scenarioC_reachable|].
  destruct (X1_getAllCandidates_listing scenarioC_state (at_ admin) scenarioC_reachable)
    as (l & Hl & Hlen & _).
  exists l. split; [exact Hl|]. rewrite Hlen. vm_compute. reflexivity.
Defined.

(** X2: in any state, [getResults] is the list of the [voteCount]s of the
    candidates [getAllCandidates] returns, in the same order. *)
Theorem X2_results_match_listing s m :
  exists l, fst (transact s m CallGetAllCandidates) = inr (RCandidateList l) /\
            fst (transact s m CallGetResults) = inr (RUintList (map voteCount l)).
Proof.
  eexists. split; unfold_tx; [reflexivity|]. rewrite List.map_map. reflexivity.
Qed.

(** X3: in a reachable state, for every existing id [i], [getCandidate(i)]
    returns the name, description and vote count of entry [i - 1] of
    [getAllCandidates]. *)
Theorem X3_getCandidate_matches_listing s m i :
  reachable s -> 1 <= i <= candidateCount s ->
  exists l c, fst (transact s m CallGetAllCandidates) = inr (RCandidateList l) /\
    l !! Z.to_nat (i - 1) = Some c /\
    fst (transact s m (CallGetCandidate i)) =
      inr (RCandidateInfo (name c) (description c) (voteCount c)).
Proof.
  intros Hs Hi. pose proof (reachable_Inv s Hs) as HI.
  destruct (inv_dense s HI i Hi) as [c Hc].
  exists (map (cand_of s) (loop_ids s)), c.
  split; [unfold_tx; reflexivity|]. split.
  - unfold loop_ids. rewrite list_lookup_fmap, lookup_ids_from by lia. simpl.
    unfold cand_of. replace (1 + Z.of_nat (Z.to_nat (i - 1))) with i by lia.
    rewrite Hc. reflexivity.
  - assert (cand_of s i = c) as Hci by (unfold cand_of; rewrite Hc; reflexivity).
    rewrite getCandidate_eq, Hci.
    apply (inv_cands s HI) in Hc as (_ & _ & -> & _). reflexivity.
Qed.

Lemma X3_getCandidate_matches_listing_witness :
  reachable scenarioC_state /\ 1 <= 2 <= candidateCount scenarioC_state /\
  exists l c, fst (transact scenarioC_state (at_ admin) CallGetAllCandidates) =
                inr (RCandidateList l) /\
    l !! 1%nat = Some c /\
    fst (transact scenarioC_state (at_ admin) (CallGetCandidate 2)) =
      inr (RCandidateInfo (name c) (description c) (voteCount c)).
Proof.
  assert (Hi : 1 <= 2 <= candidateCount scenarioC_state) by (vm_compute; split; discriminate).
  split; [exact scenarioC_reachable|split; [exact Hi|]].
  exact (X3_getCandidate_matches_listing scenarioC_state (at_ admin) 2 scenarioC_reachable Hi).
Defined.

(** X4: no transaction decreases [candidateCount] or [totalVotes]; over
    any sequence of transactions both counters only grow. *)
Theorem X4_counters_monotone s s' :
  steps s s' -> candidateCount s <= candidateCount s' /\ totalVotes s <= totalVotes s'.
Proof.
  induction 1 as [s|s m c s' _ IH]; [lia|].
  enough (candidateCount s <= candidateCount (snd (transact s m c)) /\
          totalVotes s <= totalVotes (snd (transact s m c))) by lia.
  destruct (mutating c) eqn:Hc.
  2: { rewrite view_state_unchanged by exact Hc. lia. }
  destruct c; try discriminate.
  - rewrite addCandidate_eq. repeat destruct (decide _); simpl; lia.
  - rewrite vote_eq. repeat case_match; simpl; lia.
  - rewrite toggleVoting_eq. destruct (decide _); simpl; lia.
  - rewrite transferOwnership_eq. repeat destruct (decide _); simpl; lia.
  - rewrite renounceOwnership_eq. destruct (decide _); simpl; lia.
Qed.

Lemma X4_counters_monotone_witness :
  steps one_candidate_active (snd (transact one_candidate_active (at_ 11) (CallVote 1))) /\
  totalVotes one_candidate_active <=
    totalVotes (snd (transact one_candidate_active (at_ 11) (CallVote 1))).
Proof.
  assert (Hst : steps one_candidate_active
                  (snd (transact one_candidate_active (at_ 11) (CallVote 1))))
    by (apply (steps_step _ (at_ 11) (CallVote 1)); apply steps_refl).
  split; [exact Hst|exact (proj2 (X4_counters_monotone _ _ Hst))].
Defined.

(** X5: in a reachable state [totalVotes] is the number of addresses that
    have voted, and [hasVoted(a)] holds exactly for the addresses with a
    stored [Voter] record. *)
Theorem X5_totalVotes_counts_voters s :
  reachable s ->
  totalVotes s = Z.of_nat (size (voters s)) /\
  forall a, hasVoted (voter_of s a) = true <-> is_Some (voters s !! a).
Proof.
  intros Hs. pose proof (reachable_Inv s Hs) as HI.
  split; [exact (inv_total s HI)|]. intros a.
  rewrite (hasVoted_iff_record s a HI).
  destruct (voters s !! a); split; intros H; eauto; [discriminate|].
  destruct H as [? H]; discriminate.
Qed.

Lemma X5_totalVotes_counts_voters_witness :
  reachable scenarioC_state /\ totalVotes scenarioC_state = 5.
Proof.
  split; [exact scenarioC_reachable|].
  rewrite (proj1 (X5_totalVotes_counts_voters scenarioC_state scenarioC_reachable)).
  vm_compute. reflexivity.
Defined.

(** X6: in a reachable state each candidate's [voteCount] equals the
    number of voter records whose [votedFor] is that candidate, and
    every voter record's [votedFor] is an existing candidate id in
    [1 .. candidateCount]. *)
Theorem X6_voteCount_matches_records s :
  reachable s ->
  (forall i, voteCount (cand_of s i) = votes_for (voters s) i) /\
  (forall a v, voters s !! a = Some v ->
     1 <= votedFor v <= candidateCount s /\ exists_ (cand_of s (votedFor v)) = true).
Proof.
  intros Hs. pose proof (reachable_Inv s Hs) as HI.
  pose proof (reachable_votes_for s Hs) as Hvf.
  split; [exact Hvf|]. intros a v Ha.
  pose proof (votes_for_pos _ _ _ Ha) as Hpos. rewrite <- Hvf in Hpos.
  unfold cand_of in *. destruct (candidates s !! votedFor v) as [c|] eqn:Hc.
  - apply (inv_cands s HI) in Hc as (? & _ & ? & _). simpl. auto.
  - simpl in Hpos. lia.
Qed.

Lemma X6_voteCount_matches_records_witness :
  reachable scenarioC_state /\ voteCount (cand_of scenarioC_state 1) = 3.
Proof.
  split; [exact scenarioC_reachable|].
  rewrite (proj1 (X6_voteCount_matches_records scenarioC_state scenarioC_reachable) 1).
  vm_compute. reflexivity.
Defined.

(** Sum of a [uint256[]]. *)
Definition sum_Z (l : list Z) : Z := foldr Z.add 0 l.

Definition sum_results (s : State) : Z :=
  sum_Z (map (fun i => voteCount (cand_of s i)) (loop_ids s)).

Lemma ids_from_snoc start n :
  ids_from start (S n) = ids_from start n ++ [start + Z.of_nat n].
Proof.
  revert start. induction n as [|n IH]; intros start; simpl.
  - f_equal. f_equal. lia.
  - simpl in IH. rewrite IH. f_equal. f_equal. f_equal. lia.
Qed.

Lemma sum_ids_bump f c n start :
  sum_Z (map (fun j => f j + (if decide (j = c) then 1 else 0)) (ids_from start n)) =
  sum_Z (map f (ids_from start n)) +
    (if decide (start <= c < start + Z.of_nat n) then 1 else 0).
Proof.
  revert start. induction n as [|n IH]; intros start; simpl.
  - destruct (decide _); [lia|reflexivity].
  - unfold sum_Z in *. simpl. rewrite IH.
    repeat destruct (decide _); lia.
Qed.

Lemma reachable_sum_results s : reachable s -> sum_results s = totalVotes s.
Proof.
  induction 1 as [d _|s m c Hs IH Hm]; [reflexivity|].
  pose proof (reachable_Inv s Hs) as HI.
  destruct (mutating c) eqn:Hc.
  2: { rewrite view_state_unchanged by exact Hc. exact IH. }
  destruct c; try discriminate.
  - rewrite addCandidate_eq. destruct (decide _); [|exact IH].
    destruct (decide _); [|exact IH]. simpl. rewrite <- IH.
    assert (Hpt : forall j, voteCount (cand_of (add_post s n d) j) = voteCount (cand_of s j)).
    { intros j. unfold cand_of, add_post; simpl.
      destruct (decide (candidateCount s + 1 = j)) as [<-|Hne].
      - rewrite lookup_insert_eq. simpl.
        destruct (candidates s !! _) as [c0|] eqn:Hc0; [|reflexivity].
        apply (inv_cands s HI) in Hc0. lia.
      - rewrite lookup_insert_ne by exact Hne. reflexivity. }
    unfold sum_results. rewrite (List.map_ext _ _ Hpt).
    unfold loop_ids, add_post; simpl.
    rewrite Z2Nat.inj_add by (pose proof (inv_count s HI); lia).
    rewrite Nat.add_1_r, ids_from_snoc, map_app. unfold sum_Z. rewrite foldr_app. simpl.
    assert (Hz : voteCount (cand_of s (1 + Z.of_nat (Z.to_nat (candidateCount s)))) = 0).
    { unfold cand_of. destruct (candidates s !! _) as [c0|] eqn:Hc0; [|reflexivity].
      apply (inv_cands s HI) in Hc0. pose proof (inv_count s HI). lia. }
    rewrite Hz, Z.add_0_r. reflexivity.
  - rewrite vote_eq.
    destruct (votingActive s); simpl; [|exact IH].
    destruct (hasVoted _) eqn:Hv; simpl; [exact IH|].
    destruct (exists_ (cand_of s candidateId)) eqn:He; simpl; [|exact IH].
    destruct (reentrancy_entered s); [exact IH|].
    destruct (decide _); [|exact IH]. destruct (decide _); [|exact IH]. simpl.
    unfold sum_results, loop_ids, vote_post; simpl.
    rewrite (List.map_ext _ (fun j => voteCount (cand_of s j) +
                                 (if decide (j = candidateId) then 1 else 0))).
    + rewrite sum_ids_bump. fold (loop_ids s). fold (sum_results s). rewrite IH.
      pose proof (cand_present s _ He) as Hcp. apply (inv_cands s HI) in Hcp.
      destruct (decide _); lia.
    + intros j. unfold cand_of at 1; simpl.
      destruct (decide (candidateId = j)) as [<-|Hne].
      * rewrite lookup_insert_eq, decide_True by reflexivity. reflexivity.
      * rewrite lookup_insert_ne, decide_False by congruence. fold (cand_of s j). lia.
  - rewrite toggleVoting_eq. destruct (decide _); exact IH.
  - rewrite transferOwnership_eq. repeat destruct (decide _); exact IH.
  - rewrite renounceOwnership_eq. destruct (decide _); exact IH.
Qed.

(** X7: in a reachable state [getVotingStats] reports as
    [totalCandidates] the length of [getResults] and as [totalVotesCast]
    the sum of [getResults], together with [votingActive]. *)
Theorem X7_stats_match_results s m :
  reachable s ->
  exists r, fst (transact s m CallGetResults) = inr (RUintList r) /\
    fst (transact s m CallGetVotingStats) =
      inr (RStats (Z.of_nat (length r)) (sum_Z r) (votingActive s)).
Proof.
  intros Hs. pose proof (reachable_Inv s Hs) as HI.
  pose proof (reachable_sum_results s Hs) as Hsum.
  exists (map (fun i => voteCount (cand_of s i)) (loop_ids s)).
  split; [unfold_tx; reflexivity|].
  unfold sum_results in Hsum. rewrite Hsum.
  rewrite length_map. unfold loop_ids. rewrite length_ids_from.
  rewrite Z2Nat.id by exact (inv_count s HI). unfold_tx. reflexivity.
Qed.

Lemma X7_stats_match_results_witness :
  reachable scenarioC_state /\
  fst (transact scenarioC_state (at_ admin) CallGetVotingStats) = inr (RStats 3 5 true).
Proof.
  split; [exact scenarioC_reachable|].
  destruct (X7_stats_match_results scenarioC_state (at_ admin) scenarioC_reachable)
    as (r & Hr & Hst).
  rewrite Hst. vm_compute in Hr. injection Hr as <-. reflexivity.
Defined.

Lemma candidate_kept s m c0 i c :
  Inv s -> candidates s !! i = Some c ->
  exists c', candidates (snd (transact s m c0)) !! i = Some c' /\
    id c' = id c /\ name c' = name c /\ description c' = description c /\
    exists_ c' = exists_ c /\ voteCount c <= voteCount c'.
Proof.
  intros HI Hc.
  assert (Hsame : exists c', candidates s !! i = Some c' /\
    id c' = id c /\ name c' = name c /\ description c' = description c /\
    exists_ c' = exists_ c /\ voteCount c <= voteCount c')
    by (exists c; repeat split; auto; lia).
  destruct (mutating c0) eqn:Hm.
  2: { rewrite view_state_unchanged by exact Hm. exact Hsame. }
  destruct c0; try discriminate.
  - rewrite addCandidate_eq. destruct (decide _); [|exact Hsame].
    destruct (decide _); [|exact Hsame]. simpl. unfold add_post; simpl.
    rewrite lookup_insert_ne; [exact Hsame|].
    apply (inv_cands s HI) in Hc. lia.
  - rewrite vote_eq. repeat case_match; try exact Hsame.
    simpl. unfold vote_post; simpl.
    destruct (decide (candidateId = i)) as [<-|Hne].
    + rewrite lookup_insert_eq. eexists. split; [reflexivity|].
      unfold cand_of. rewrite Hc. simpl. repeat split; lia.
    + rewrite lookup_insert_ne by exact Hne. exact Hsame.
  - rewrite toggleVoting_eq. destruct (decide _); exact Hsame.
  - rewrite transferOwnership_eq. repeat destruct (decide _); exact Hsame.
  - rewrite renounceOwnership_eq. destruct (decide _); exact Hsame.
Qed.

(** X8: once a candidate is stored, every later reachable state keeps it
    under the same id with the same name, description and [exists]
    flag, and with a [voteCount] at least as large. *)
Theorem X8_candidate_immutable s s' i c :
  reachable s -> valid_steps s s' -> candidates s !! i = Some c ->
  exists c', candidates s' !! i = Some c' /\
    id c' = id c /\ name c' = name c /\ description c' = description c /\
    exists_ c' = exists_ c /\ voteCount c <= voteCount c'.
Proof.
  intros Hs Hst. revert c. induction Hst as [s|s m c0 s' Hm Hst IH]; intros c Hc.
  - exists c. repeat split; auto; lia.
  - destruct (candidate_kept s m c0 i c (reachable_Inv s Hs) Hc)
      as (c1 & Hc1 & H1 & H2 & H3 & H4 & H5).
    destruct (IH (reach_step s m c0 Hs Hm) c1 Hc1) as (c2 & Hc2 & ? & ? & ? & ? & ?).
    exists c2. repeat split; congruence || lia.
Qed.

Lemma X8_candidate_immutable_witness :
  reachable one_candidate_active /\
  valid_steps one_candidate_active (snd (transact one_candidate_active (at_ 11) (CallVote 1))) /\
  candidates one_candidate_active !! 1 = Some (mkCandidate 1 "Alice" "Candidate 1" 0 true) /\
  exists c', candidates (snd (transact one_candidate_active (at_ 11) (CallVote 1))) !! 1 = Some c' /\
    name c' = "Alice"%string.
Proof.
  assert (Hr : reachable one_candidate_active).
  { apply reachable_run; [apply reach_init; unfold admin, ADDRESS_BOUND; lia|].
    repeat (constructor; [unfold valid_msg, ADDRESS_BOUND, at_, admin; simpl; lia|]).
    constructor. }
  assert (Hst : valid_steps one_candidate_active
                  (snd (transact one_candidate_active (at_ 11) (CallVote 1)))).
  { apply (vsteps_step _ (at_ 11) (CallVote 1)); [unfold valid_msg, ADDRESS_BOUND, at_; simpl; lia|].
    apply vsteps_refl. }
  assert (Hc : candidates one_candidate_active !! 1 =
                 Some (mkCandidate 1 "Alice" "Candidate 1" 0 true)) by (vm_compute; reflexivity).
  split; [exact Hr|split; [exact Hst|split; [exact Hc|]]].
  destruct (X8_candidate_immutable _ _ 1 _ Hr Hst Hc) as (c' & Hc' & _ & Hn & _).
  exists c'. split; [exact Hc'|exact Hn].
Defined.

Lemma admin_call_unauthorized s m ac :
  owner s <> msg_sender m ->
  transact s m (admin_call ac) = (inl (OwnableUnauthorizedAccount (msg_sender m)), s).
Proof.
  intros Hne. destruct ac; simpl.
  - rewrite addCandidate_eq. destruct (decide _); [contradiction|reflexivity].
  - rewrite toggleVoting_eq. destruct (decide _); [contradiction|reflexivity].
Qed.

Lemma owner_unchanged_non_ownership s m c :
  ownership_call c = false -> owner (snd (transact s m c)) = owner s.
Proof.
  intros Hc. destruct (mutating c) eqn:Hm.
  2: { rewrite view_state_unchanged by exact Hm. reflexivity. }
  destruct c; try discriminate.
  - rewrite addCandidate_eq. repeat destruct (decide _); reflexivity.
  - rewrite vote_eq. repeat case_match; reflexivity.
  - rewrite toggleVoting_eq. destruct (decide _); reflexivity.
Qed.

(** X9: after a successful [renounceOwnership] the owner is the zero
    address for good: whatever transactions non-zero addresses send
    afterwards, [owner] stays [0] and [addCandidate] and [toggleVoting]
    revert for every non-zero caller. *)
Theorem X9_renounce_permanent s m s1 :
  transact s m CallRenounceOwnership = (inr RUnit, s1) ->
  forall txs, Forall (fun '(m', _) => msg_sender m' <> 0) txs ->
  owner (snd (run s1 txs)) = 0 /\
  forall m' ac, msg_sender m' <> 0 ->
    transact (snd (run s1 txs)) m' (admin_call ac) =
      (inl (OwnableUnauthorizedAccount (msg_sender m')), snd (run s1 txs)).
Proof.
  rewrite renounceOwnership_eq. destruct (decide _); [|discriminate].
  intros [= <-].
  assert (Hown : forall txs, Forall (fun '(m', _) => msg_sender m' <> 0) txs ->
            forall s2, owner s2 = 0 -> owner (snd (run s2 txs)) = 0).
  { induction txs as [|[m' c] txs IH]; intros Hf s2 H0; [exact H0|].
    inversion Hf as [|? ? Hm' Hrest]; subst. simpl.
    destruct (transact s2 m' c) as [r s3] eqn:Ht.
    destruct (run s3 txs) as [rs s4] eqn:Hr. simpl.
    change s4 with (snd (rs, s4)). rewrite <- Hr. apply IH; [exact Hrest|].
    change s3 with (snd (r, s3)). rewrite <- Ht.
    destruct (ownership_call c) eqn:Hoc.
    - destruct c; try discriminate.
      + rewrite transferOwnership_eq. destruct (decide _); [congruence|exact H0].
      + rewrite renounceOwnership_eq. destruct (decide _); [congruence|exact H0].
    - rewrite owner_unchanged_non_ownership by exact Hoc. exact H0. }
  intros txs Hf. pose proof (Hown txs Hf (set_owner 0 s) eq_refl) as H0.
  split; [exact H0|]. intros m' ac Hm'.
  apply admin_call_unauthorized. congruence.
Qed.

Lemma X9_renounce_permanent_witness :
  transact (init_state admin) (at_ admin) CallRenounceOwnership =
    (inr RUnit, set_owner 0 (init_state admin)) /\
  owner (snd (run (set_owner 0 (init_state admin)) [(at_ admin, CallToggleVoting)])) = 0.
Proof.
  assert (Ht : transact (init_state admin) (at_ admin) CallRenounceOwnership =
                 (inr RUnit, set_owner 0 (init_state admin))) by (vm_compute; reflexivity).
  split; [exact Ht|].
  refine (proj1 (X9_renounce_permanent _ _ _ Ht [(at_ admin, CallToggleVoting)] _)).
  constructor; [vm_compute; discriminate|constructor].
Defined.

(** X10: [transferOwnership] by the owner hands the contract over: to the
    zero address it reverts with [OwnableInvalidOwner(0)] and changes
    nothing; to any other address [a] it succeeds, changes only [owner]
    to [a], after which [a] can call [toggleVoting] and the previous
    owner (if different from [a]) is refused on [addCandidate] and
    [toggleVoting]. *)
Theorem X10_transfer_hands_over s m a :
  owner s = msg_sender m ->
  transact s m (CallTransferOwnership 0) = (inl (OwnableInvalidOwner 0), s) /\
  (a <> 0 ->
   let s1 := snd (transact s m (CallTransferOwnership a)) in
   fst (transact s m (CallTransferOwnership a)) = inr RUnit /\
   s1 = set_owner a s /\
   (forall t, transact s1 (mkMsg a t) CallToggleVoting =
                (inr RUnit, set_votingActive (negb (votingActive s)) s1)) /\
   (a <> msg_sender m -> forall m' ac, msg_sender m' = msg_sender m ->
      transact s1 m' (admin_call ac) =
        (inl (OwnableUnauthorizedAccount (msg_sender m)), s1))).
Proof.
  intros Ho. split.
  { rewrite transferOwnership_eq. rewrite decide_True by exact Ho. reflexivity. }
  intros Ha s1. subst s1. rewrite transferOwnership_eq.
  rewrite decide_True by exact Ho. rewrite decide_False by exact Ha. simpl.
  split; [reflexivity|split; [reflexivity|split]].
  - intros t. rewrite toggleVoting_eq. simpl. rewrite decide_True by reflexivity.
    reflexivity.
  - intros Hne m' ac Hm'. rewrite <- Hm'. apply admin_call_unauthorized.
    simpl. congruence.
Qed.

Lemma X10_transfer_hands_over_witness :
  owner (init_state admin) = msg_sender (at_ admin) /\
  transact (snd (transact (init_state admin) (at_ admin) (CallTransferOwnership 2)))
    (at_ admin) CallToggleVoting =
    (inl (OwnableUnauthorizedAccount admin),
     snd (transact (init_state admin) (at_ admin) (CallTransferOwnership 2))).
Proof.
  assert (Ho : owner (init_state admin) = msg_sender (at_ admin)) by reflexivity.
  split; [exact Ho|].
  destruct (X10_transfer_hands_over (init_state admin) (at_ admin) 2 Ho) as [_ H].
  destruct (H ltac:(lia)) as (_ & _ & _ & Hr).
  exact (Hr ltac:(unfold at_, admin; simpl; lia) (at_ admin) AdToggleVoting eq_refl).
Defined.

(** X11: two [toggleVoting] calls by the owner both succeed and restore
    exactly the state before them. *)
Theorem X11_toggle_twice_identity s m :
  owner s = msg_sender m ->
  fst (transact s m CallToggleVoting) = inr RUnit /\
  transact (snd (transact s m CallToggleVoting)) m CallToggleVoting = (inr RUnit, s).
Proof.
  intros Ho. rewrite !toggleVoting_eq. rewrite decide_True by exact Ho. simpl.
  split; [reflexivity|]. rewrite decide_True by exact Ho.
  rewrite negb_involutive. destruct s; reflexivity.
Qed.

Lemma X11_toggle_twice_identity_witness :
  owner scenarioC_state = msg_sender (at_ admin) /\
  transact (snd (transact scenarioC_state (at_ admin) CallToggleVoting))
    (at_ admin) CallToggleVoting = (inr RUnit, scenarioC_state).
Proof.
  assert (Ho : owner scenarioC_state = msg_sender (at_ admin)) by (vm_compute; reflexivity).
  split; [exact Ho|exact (proj2 (X11_toggle_twice_identity _ _ Ho))].
Defined.

(** ** Front end: the admin panel's [addCandidate] form handler
    (src/src/components/Admin/AdminPanel.js).  A JavaScript string is a
    sequence of UTF-16 code units; [String.prototype.trim] removes the
    leading and trailing code units that are WhiteSpace or
    LineTerminator in ECMAScript: TAB, LF, VT, FF, CR, SP, NBSP, ZWNBSP
    and the Unicode space separators. *)

Definition js_string := list Z.

Definition is_js_whitespace (c : Z) : bool :=
  bool_decide (c = 9 \/ c = 10 \/ c = 11 \/ c = 12 \/ c = 13 \/ c = 32 \/
               c = 160 \/ c = 5760 \/ (8192 <= c <= 8202) \/ c = 8232 \/
               c = 8233 \/ c = 8239 \/ c = 8287 \/ c = 12288 \/ c = 65279).

Fixpoint drop_ws (l : js_string) : js_string :=
  match l with
  | [] => []
  | c :: r => if is_js_whitespace c then drop_ws r else l
  end.

Definition js_trim (l : js_string) : js_string :=
  reverse (drop_ws (reverse (drop_ws l))).

(** [!s] on a string is [true] exactly for the empty string. *)
Definition js_not (l : js_string) : bool :=
  match l with [] => true | _ => false end.

Inductive UIResult :=
  | UISetError (msg : String.string)
  | UISendAddCandidate (name description : js_string).

(** [addCandidate] of the form: the guard on the trimmed fields, then the
    contract call with the trimmed values. *)
Definition ui_addCandidate (candidateName candidateDescription : js_string) : UIResult :=
  if js_not (js_trim candidateName) || js_not (js_trim candidateDescription)
  then UISetError "Please fill in all fields."
  else UISendAddCandidate (js_trim candidateName) (js_trim candidateDescription).

Lemma drop_ws_nil_iff l :
  drop_ws l = [] <-> Forall (fun c => is_js_whitespace c = true) l.
Proof.
  induction l as [|c r IH]; simpl.
  - split; [constructor|reflexivity].
  - destruct (is_js_whitespace c) eqn:Hc.
    + rewrite IH. split; [intros H; constructor; auto|intros H; inversion H; auto].
    + split; [discriminate|intros H; inversion H; congruence].
Qed.

Lemma drop_ws_head l :
  drop_ws l = [] \/ exists c r, drop_ws l = c :: r /\ is_js_whitespace c = false.
Proof.
  induction l as [|c r IH]; simpl; [left; reflexivity|].
  destruct (is_js_whitespace c) eqn:Hc; [exact IH|right; eauto].
Qed.

Lemma drop_ws_snoc l c :
  is_js_whitespace c = false -> drop_ws (l ++ [c]) = drop_ws l ++ [c].
Proof.
  intros Hc. induction l as [|a r IH]; simpl.
  - rewrite Hc. reflexivity.
  - destruct (is_js_whitespace a); [exact IH|reflexivity].
Qed.

Lemma drop_ws_keep l :
  (forall c, head l = Some c -> is_js_whitespace c = false) -> drop_ws l = l.
Proof. destruct l as [|c r]; simpl; [reflexivity|]. intros H. rewrite H; reflexivity. Qed.

Lemma js_trim_nil_iff l :
  js_trim l = [] <-> Forall (fun c => is_js_whitespace c = true) l.
Proof.
  unfold js_trim. rewrite <- drop_ws_nil_iff. split.
  - intros H. destruct (drop_ws_head l) as [Hn|(c & r & Hd & Hc)]; [exact Hn|].
    rewrite Hd, reverse_cons, drop_ws_snoc, reverse_app in H by exact Hc.
    discriminate H.
  - intros ->. reflexivity.
Qed.

Lemma js_trim_ends l :
  js_trim l <> [] ->
  (exists c, head (js_trim l) = Some c /\ is_js_whitespace c = false) /\
  (exists c, last (js_trim l) = Some c /\ is_js_whitespace c = false).
Proof.
  intros Hne. unfold js_trim in *. split.
  - destruct (drop_ws_head l) as [Hn|(c & r & Hd & Hc)]; [rewrite Hn in Hne; contradiction|].
    rewrite Hd, reverse_cons, drop_ws_snoc, reverse_app by exact Hc. simpl. eauto.
  - rewrite last_reverse.
    destruct (drop_ws_head (reverse (drop_ws l))) as [Hn|(c & r & Hd & Hc)].
    + rewrite Hn in Hne. contradiction.
    + rewrite Hd. simpl. eauto.
Qed.

Lemma js_trim_id l :
  (forall c, head l = Some c -> is_js_whitespace c = false) ->
  (forall c, last l = Some c -> is_js_whitespace c = false) ->
  js_trim l = l.
Proof.
  intros Hh Hl. unfold js_trim. rewrite (drop_ws_keep l Hh).
  rewrite drop_ws_keep; [apply reverse_involutive|].
  intros c. rewrite head_reverse. apply Hl.
Qed.

(** X12: the admin form sends [addCandidate] only when each field has a
    character other than white space; otherwise it shows "Please fill in
    all fields." and sends nothing.  What it sends is non-empty, begins
    and ends with a non-white-space code unit, and is left unchanged by
    a further [trim]. *)
Theorem X12_admin_form_trims name desc n' d' :
  ui_addCandidate name desc = UISendAddCandidate n' d' ->
  n' = js_trim name /\ d' = js_trim desc /\
  Exists (fun c => is_js_whitespace c = false) name /\
  Exists (fun c => is_js_whitespace c = false) desc /\
  (forall x, x = n' \/ x = d' ->
     x <> [] /\ js_trim x = x /\
     (exists c, head x = Some c /\ is_js_whitespace c = false) /\
     (exists c, last x = Some c /\ is_js_whitespace c = false)).
Proof.
  unfold ui_addCandidate.
  destruct (js_trim name) as [|a na] eqn:Hn; [discriminate|].
  destruct (js_trim desc) as [|b db] eqn:Hd; [discriminate|].
  simpl. intros [= <- <-].
  assert (Hall : forall l, js_trim l <> [] -> Exists (fun c => is_js_whitespace c = false) l).
  { intros l Hl. assert (Hl2 : ~ Forall (fun c => is_js_whitespace c = true) l) by (rewrite <- js_trim_nil_iff; exact Hl). clear Hl; rename Hl2 into Hl. induction l as [|c r IH].
    - exfalso. apply Hl. constructor.
    - destruct (is_js_whitespace c) eqn:Hc; [|left; exact Hc].
      right. apply IH. intros Hf. apply Hl. constructor; assumption. }
  split; [reflexivity|split; [reflexivity|]].
  split; [apply Hall; rewrite Hn; discriminate|].
  split; [apply Hall; rewrite Hd; discriminate|].
  intros x Hx.
  assert (Hxt : exists l, x = js_trim l /\ x <> []).
  { destruct Hx as [->| ->]; [exists name|exists desc]; split; congruence. }
  destruct Hxt as (l & -> & Hne).
  destruct (js_trim_ends l Hne) as [[c [Hc1 Hc2]] [c' [Hc1' Hc2']]].
  split; [exact Hne|split; [|split; eauto]].
  apply js_trim_id; intros e He; congruence.
Qed.

Lemma X12_admin_form_trims_witness :
  ui_addCandidate [32; 65; 108; 105; 99; 101; 10] [66; 105; 111] =
    UISendAddCandidate [65; 108; 105; 99; 101] [66; 105; 111] /\
  js_trim [65; 108; 105; 99; 101] = [65; 108; 105; 99; 101].
Proof.
  assert (H : ui_addCandidate [32; 65; 108; 105; 99; 101; 10] [66; 105; 111] =
                UISendAddCandidate [65; 108; 105; 99; 101] [66; 105; 111])
    by (vm_compute; reflexivity).
  split; [exact H|].
  destruct (X12_admin_form_trims _ _ _ _ H) as (_ & _ & _ & _ & Hx).
  exact (proj1 (proj2 (Hx _ (or_introl eq_refl)))).
Defined.

(** X13: when a field is empty or only white space, the admin form shows
    "Please fill in all fields." and sends no transaction. *)
Theorem X13_admin_form_rejects_blank name desc :
  Forall (fun c => is_js_whitespace c = true) name \/
  Forall (fun c => is_js_whitespace c = true) desc ->
  ui_addCandidate name desc = UISetError "Please fill in all fields.".
Proof.
  unfold ui_addCandidate. rewrite <- !js_trim_nil_iff.
  intros [-> | ->]; [reflexivity|]. destruct (js_not (js_trim name)); reflexivity.
Qed.

Lemma X13_admin_form_rejects_blank_witness :
  (Forall (fun c => is_js_whitespace c = true) [65; 66] \/
   Forall (fun c => is_js_whitespace c = true) [32; 160; 12288]) /\
  ui_addCandidate [65; 66] [32; 160; 12288] = UISetError "Please fill in all fields.".
Proof.
  assert (H : Forall (fun c => is_js_whitespace c = true) [65; 66] \/
              Forall (fun c => is_js_whitespace c = true) [32; 160; 12288]).
  { right. repeat constructor. }
  split; [exact H|exact (X13_admin_form_rejects_blank _ _ H)].
Defined.

(** X14: for an id outside [1 .. candidateCount] (id [0] included),
    [getCandidate] reverts with "Candidate does not exist", whereas the
    public getter [candidates(id)] does not revert and returns the
    all-zero [Candidate] (id 0, empty name and description, no votes,
    [exists] false); neither changes the state. *)
Theorem X14_out_of_range_candidate s m i :
  reachable s -> i < 1 \/ candidateCount s < i ->
  transact s m (CallGetCandidate i) = (inl ErrCandidateDoesNotExist, s) /\
  transact s m (CallCandidates i) = (inr (RCandidate zero_candidate), s).
Proof.
  intros Hs Hi. pose proof (reachable_Inv s Hs) as HI.
  assert (Hn : candidates s !! i = None).
  { destruct (candidates s !! i) as [c|] eqn:Hc; [|reflexivity].
    apply (inv_cands s HI) in Hc. lia. }
  unfold_tx; unfold cand_of; rewrite Hn; split; reflexivity.
Qed.

Lemma X14_out_of_range_candidate_witness :
  reachable scenarioC_state /\ (0 < 1 \/ candidateCount scenarioC_state < 0) /\
  transact scenarioC_state (at_ admin) (CallGetCandidate 0) =
    (inl ErrCandidateDoesNotExist, scenarioC_state).
Proof.
  assert (Hi : 0 < 1 \/ candidateCount scenarioC_state < 0) by (left; lia).
  split; [exact scenarioC_reachable|split; [exact Hi|]].
  exact (proj1 (X14_out_of_range_candidate _ (at_ admin) 0 scenarioC_reachable Hi)).
Defined.
